(** * voting-app: the vote intake (vote/app.py) and the tally worker
      (worker/worker.py), embedded as state-passing functions over the two
      external stores they talk to: the Redis list [votes] and the
      Postgres table [votes]. *)

From Stdlib Require Import ZArith NArith Strings.String Strings.Byte Lia.
From stdpp Require Import base option list gmap strings.

Local Open Scope string_scope.
Local Open Scope list_scope.
Local Open Scope nat_scope.

(** ** Python values, exceptions and outcomes of a call *)

Module Py.

(** A raised exception: its class name and [str(e)]. *)
Inductive exn := Exn (cls : string) (msg : string).

Definition str (e : exn) : string :=
  match e with Exn _ msg => msg end.

(** What a call does: it returns a value, it raises, or it suspends
    forever (a blocking call with no timeout on an empty list). *)
Inductive outcome (A : Type) :=
| Return (a : A)
| Raise (e : exn)
| Wait.
Arguments Return {A} a.
Arguments Raise {A} e.
Arguments Wait {A}.

Definition bytes := list byte.

(** [s.encode("utf-8")]: a [str] is kept as its UTF-8 text. *)
Definition encode (s : string) : bytes := list_byte_of_string s.

Definition between (lo hi n : N) : bool := ((lo <=? n) && (n <=? hi))%N.
Definition cont (n : N) : bool := between 128 191 n.

(** Well-formed UTF-8 byte sequences (no overlong forms, no surrogates,
    nothing above U+10FFFF), which is what the strict codec accepts. *)
Fixpoint utf8_valid (bs : bytes) : bool :=
  match bs with
  | [] => true
  | b0 :: t0 =>
    let n0 := Byte.to_N b0 in
    if (n0 <=? 127)%N then utf8_valid t0 else
    match t0 with
    | [] => false
    | b1 :: t1 =>
      let n1 := Byte.to_N b1 in
      if between 194 223 n0 then cont n1 && utf8_valid t1 else
      match t1 with
      | [] => false
      | b2 :: t2 =>
        let n2 := Byte.to_N b2 in
        if between 224 239 n0 then
          (if (n0 =? 224)%N then between 160 191 n1
           else if (n0 =? 237)%N then between 128 159 n1
           else cont n1)
          && cont n2 && utf8_valid t2
        else
        match t2 with
        | [] => false
        | b3 :: t3 =>
          let n3 := Byte.to_N b3 in
          between 240 244 n0
          && (if (n0 =? 240)%N then between 144 191 n1
              else if (n0 =? 244)%N then between 128 143 n1
              else cont n1)
          && cont n2 && cont n3 && utf8_valid t3
        end
      end
    end
  end.

(** [val.decode("utf-8")]; the text of the error is abridged. *)
Definition decode (val : bytes) : outcome string :=
  if utf8_valid val then Return (string_of_list_byte val)
  else Raise (Exn "UnicodeDecodeError" "'utf-8' codec can't decode byte").

(** [x in (a, b, ...)] *)
Definition py_in {A} `{EqDecision A} (x : A) (tuple : list A) : bool :=
  bool_decide (x ∈ tuple).

End Py.
Import Py.

(** ** The Postgres side: table [votes], one connection *)

Module Pg.

(** Largest value of an INTEGER column. *)
Definition INT4_MAX : Z := 2147483647.

(** The two statements the worker sends. *)
Inductive sql :=
| CREATE_TABLE_IF_NOT_EXISTS_votes
| INSERT_votes_ON_CONFLICT_DO_UPDATE (choice : string).

(** The database: [None] while relation [votes] does not exist, otherwise
    its rows, [option TEXT PRIMARY KEY] to [count INTEGER NOT NULL]. *)
Definition database := option (gmap string Z).

Definition rows (db : database) : gmap string Z := default ∅ db.

(** Server-side meaning of one statement. Adding 1 to a count that is
    already [INT4_MAX] is an error of the server, not a wrap-around. *)
Definition run_sql (s : sql) (db : database) : exn + database :=
  match s with
  | CREATE_TABLE_IF_NOT_EXISTS_votes =>
    match db with
    | None => inr (Some ∅)
    | Some t => inr (Some t)
    end
  | INSERT_votes_ON_CONFLICT_DO_UPDATE choice =>
    match db with
    | None => inl (Exn "UndefinedTable" "relation votes does not exist")
    | Some t =>
      match t !! choice with
      | None => inr (Some (<[choice := 1%Z]> t))
      | Some c =>
        if (c + 1 <=? INT4_MAX)%Z then inr (Some (<[choice := (c + 1)%Z]> t))
        else inl (Exn "NumericValueOutOfRange" "integer out of range")
      end
    end
  end.

(** The transaction a connection has open: with its uncommitted view of
    the database, or aborted by a statement that failed in it. An aborted
    transaction stays so until it is ended; [worker.py] never rolls back. *)
Inductive transaction :=
| Open (uncommitted : database)
| Aborted.

(** A connection: what is durably stored, the open transaction if there
    is one, and the statements that reached the server so far. *)
Record connection := Connection {
  stored : database;
  txn : option transaction;
  sent : list sql
}.

Definition connect (db : database) : connection :=
  {| stored := db; txn := None; sent := [] |}.

Definition view (c : connection) : database :=
  match txn c with
  | Some (Open db) => db
  | _ => stored c
  end.

(** U+0000 in a text: the one character that [psycopg2] refuses to pass
    as a parameter. *)
Fixpoint has_nul (s : string) : bool :=
  match s with
  | EmptyString => false
  | String a s' => (Ascii.N_of_ascii a =? 0)%N || has_nul s'
  end.

(** The parameters of a statement, as bound by the client. *)
Definition parameters (stmt : sql) : list string :=
  match stmt with
  | CREATE_TABLE_IF_NOT_EXISTS_votes => []
  | INSERT_votes_ON_CONFLICT_DO_UPDATE choice => [choice]
  end.

End Pg.
Import Pg.

(** ** The world both processes act on *)

Record world := World {
  votes : list bytes;      (* Redis list "votes", head first *)
  conn : connection;       (* the worker's global [conn] *)
  stdout : list string;    (* lines printed by the worker *)
  slept : nat              (* seconds spent in [time.sleep] *)
}.

Definition set_votes (q : list bytes) (w : world) : world :=
  {| votes := q; conn := conn w; stdout := stdout w; slept := slept w |}.
Definition set_conn (c : connection) (w : world) : world :=
  {| votes := votes w; conn := c; stdout := stdout w; slept := slept w |}.

(** The world in which a freshly connected worker starts: nothing printed,
    no time slept. *)
Definition boot (q : list bytes) (db : database) : world :=
  {| votes := q; conn := connect db; stdout := []; slept := 0 |}.

(** ** A state-and-exception monad for the handlers and the loop body *)

Definition M (A : Type) : Type := world → outcome A * world.

Definition ret {A} (a : A) : M A := λ w, (Return a, w).
Definition raise {A} (e : exn) : M A := λ w, (Raise e, w).
Definition bind {A B} (c : M A) (k : A → M B) : M B :=
  λ w, match c w with
       | (Return a, w') => k a w'
       | (Raise e, w') => (Raise e, w')
       | (Wait, w') => (Wait, w')
       end.

(** [try: body  except Exception as e: handler e] *)
Definition try_except {A} (body : M A) (handler : exn → M A) : M A :=
  λ w, match body w with
       | (Raise e, w') => handler e w'
       | r => r
       end.

#[global] Instance M_ret : MRet M := @ret.
#[global] Instance M_bind : MBind M := λ A B k c, bind c k.

Definition printed (line : string) (w : world) : world :=
  {| votes := votes w; conn := conn w;
     stdout := stdout w ++ [line]; slept := slept w |}.
Definition asleep (secs : nat) (w : world) : world :=
  {| votes := votes w; conn := conn w;
     stdout := stdout w; slept := slept w + secs |}.

Definition print (line : string) : M unit := λ w, (Return tt, printed line w).
Definition sleep (secs : nat) : M unit := λ w, (Return tt, asleep secs w).

(** Lift a pure outcome (a decode, say) into the monad. *)
Definition lift {A} (o : outcome A) : M A := λ w, (o, w).

(** ** The Redis client [r] *)

Module Redis.

(** Every call takes the fault the network injects into it, if any. *)
Definition ping (fault : option exn) : M bool :=
  match fault with
  | Some e => raise e
  | None => ret true
  end.

(** [r.lpush("votes", v)]: the value goes in at the head. *)
Definition lpush (fault : option exn) (v : option string) : M nat :=
  match fault with
  | Some e => raise e
  | None =>
    match v with
    | None => raise (Exn "DataError" "Invalid input of type: 'NoneType'")
    | Some s => λ w, (Return (S (length (votes w))), set_votes (encode s :: votes w) w)
    end
  end.

Definition pop_tail (q : list bytes) : option (list bytes * bytes) :=
  match rev q with
  | [] => None
  | v :: r => Some (rev r, v)
  end.

(** [r.brpop("votes")]: the value comes out at the tail; on an empty
    list the call suspends. *)
Definition brpop (fault : option exn) : M (bytes * bytes) :=
  match fault with
  | Some e => raise e
  | None =>
    λ w, match pop_tail (votes w) with
         | None => (Wait, w)
         | Some (q, v) => (Return (encode "votes", v), set_votes q w)
         end
  end.

End Redis.

(** ** vote/app.py *)

Module App.

Inductive body :=
| Json (fields : list (string * string))
| RedirectPage (target : string).

Record response := Response {
  status : nat;
  location : option string;
  content : body
}.

(** [redirect("/")] *)
Definition redirect (target : string) : response :=
  {| status := 302; location := Some target; content := RedirectPage target |}.

(** A view returning a dict, or [(dict, code)]. *)
Definition jsonify (code : nat) (fields : list (string * string)) : response :=
  {| status := code; location := None; content := Json fields |}.

(** [request.form]: the submitted fields in order; [get] gives the first
    value of a key, or [None]. *)
Definition form := list (string * string).

Fixpoint form_get (key : string) (f : form) : option string :=
  match f with
  | [] => None
  | (k, v) :: f' => if decide (k = key) then Some v else form_get key f'
  end.

Definition health (fault : option exn) : M response :=
  try_except
    (Redis.ping fault ;; mret (jsonify 200 [("status", "ok")]))
    (λ e, mret (jsonify 500 [("status", "error"); ("detail", str e)])).

Definition vote (fault : option exn) (request_form : form) : M response :=
  let v := form_get "vote" request_form in
  if negb (py_in v [Some "cats"; Some "dogs"]) then mret (redirect "/")
  else Redis.lpush fault v ;; mret (redirect "/").

End App.

(** ** worker/worker.py *)

Module Worker.

(** [cur.execute(stmt)]. A parameter with U+0000 is refused by the client
    before anything is sent. Any other failure, injected or answered by the
    server, leaves the transaction aborted, and in an aborted transaction
    the server refuses every statement. *)
Definition execute (fault : option exn) (stmt : sql) : M unit :=
  λ w, let c := conn w in
       if existsb has_nul (parameters stmt) then
         (Raise (Exn "ValueError"
                     "A string literal cannot contain NUL (0x00) characters."),
          w)
       else
       match fault with
       | Some e =>
         (Raise e, set_conn {| stored := stored c; txn := Some Aborted;
                               sent := sent c |} w)
       | None =>
         match txn c with
         | Some Aborted =>
           (Raise (Exn "InFailedSqlTransaction"
                       "current transaction is aborted, commands ignored until end of transaction block"),
            set_conn {| stored := stored c; txn := Some Aborted;
                        sent := sent c ++ [stmt] |} w)
         | _ =>
           match run_sql stmt (view c) with
           | inl e =>
             (Raise e, set_conn {| stored := stored c; txn := Some Aborted;
                                   sent := sent c ++ [stmt] |} w)
           | inr db =>
             (Return tt, set_conn {| stored := stored c; txn := Some (Open db);
                                     sent := sent c ++ [stmt] |} w)
           end
         end
       end.

(** [conn.commit()]: the uncommitted view becomes what is stored; an
    aborted transaction has none, and ends with nothing changed. *)
Definition commit : M unit :=
  λ w, let c := conn w in
       (Return tt, set_conn {| stored := view c; txn := None; sent := sent c |} w).

Definition ensure_table (fault : option exn) : M unit :=
  execute fault CREATE_TABLE_IF_NOT_EXISTS_votes ;; commit.

Definition increment_vote (fault : option exn) (choice : string) : M unit :=
  execute fault (INSERT_votes_ON_CONFLICT_DO_UPDATE choice) ;; commit.

(** The faults injected into one pass of the loop: into the pop and into
    the upsert. *)
Record env := Env { redis_fault : option exn; pg_fault : option exn }.

(** The body of [while True] in [main]. *)
Definition loop_body (e : env) : M unit :=
  try_except
    ('(_, val) ← Redis.brpop (redis_fault e);
     choice ← lift (decode val);
     if py_in choice ["cats"; "dogs"] then
       increment_vote (pg_fault e) choice ;;
       print ("counted: " +:+ choice)
     else mret tt)
    (λ ex, print ("Error processing vote: " +:+ str ex) ;; sleep 1).

(** As many passes of the loop as there are environments; a pass that
    suspends in the pop ends the run where it stands. *)
Fixpoint main_loop (envs : list env) (w : world) : world :=
  match envs with
  | [] => w
  | e :: envs' =>
    match loop_body e w with
    | (Return _, w') => main_loop envs' w'
    | (_, w') => w'
    end
  end.

(** [main], once [get_conn] has handed over the connection: an error of
    [ensure_table] is not caught and ends the process. *)
Definition main (fault : option exn) (envs : list env) (w : world) : world :=
  match (ensure_table fault ;;
         print "Worker started; waiting for votes...") w with
  | (Return _, w') => main_loop envs w'
  | (_, w') => w'
  end.

End Worker.

(** ** The system: both processes and other Redis clients, interleaved *)

Module System.
Import App Worker.

Inductive action :=
| PostVote (fault : option exn) (f : form)   (* POST /vote *)
| GetHealth (fault : option exn)             (* GET /health *)
| ClientPush (entry : bytes)                 (* another client's LPUSH *)
| EnsureTable (fault : option exn)           (* worker: ensure_table(conn) *)
| LoopPass (e : env).                        (* worker: one pass of the loop *)

Definition step (a : action) (w : world) : world :=
  match a with
  | PostVote fault f => snd (vote fault f w)
  | GetHealth fault => snd (health fault w)
  | ClientPush entry => set_votes (entry :: votes w) w
  | EnsureTable fault => snd (ensure_table fault w)
  | LoopPass e => snd (loop_body e w)
  end.

Fixpoint run (acts : list action) (w : world) : world :=
  match acts with
  | [] => w
  | a :: acts' => run acts' (step a w)
  end.

(** Submissions and pops on the list, interleaved; a pop on an empty list
    stays pending and is served by a later [Pop]. *)
Inductive qop :=
| Submit (fault : option exn) (f : form)
| Pop.

(** The values popped, in the order they were popped, and the world left. *)
Fixpoint exchange (ops : list qop) (w : world) : list bytes * world :=
  match ops with
  | [] => ([], w)
  | Submit fault f :: ops' => exchange ops' (snd (vote fault f w))
  | Pop :: ops' =>
    match Redis.brpop None w with
    | (Return (_, val), w') =>
      let '(vals, w'') := exchange ops' w' in (val :: vals, w'')
    | (_, w') => exchange ops' w'
    end
  end.

(** The values the intake pushed, in the order they were submitted. *)
Fixpoint accepted (ops : list qop) : list bytes :=
  match ops with
  | [] => []
  | Submit None f :: ops' =>
    match form_get "vote" f with
    | Some v => if py_in v ["cats"; "dogs"] then encode v :: accepted ops'
                else accepted ops'
    | None => accepted ops'
    end
  | _ :: ops' => accepted ops'
  end.

End System.

(** ** Reading the tally *)

(** The count of an option; no row reads as 0. *)
Definition tally (db : database) (o : string) : Z :=
  default 0%Z (rows db !! o).

(** Every row of [d] is still in [d'], with a count at least as large. *)
Definition db_le (d d' : database) : Prop :=
  ∀ o c, rows d !! o = Some c → ∃ c', rows d' !! o = Some c' ∧ (c ≤ c')%Z.

(** The row of an option after one upsert. *)
Definition upserted (row : option Z) : Z :=
  match row with
  | None => 1%Z
  | Some c => (c + 1)%Z
  end.

Definition is_vote_for (o : string) (entry : bytes) : bool :=
  match decode entry with
  | Return c => bool_decide (c = o)
  | _ => false
  end.

(** How many entries of the list are votes for [o]. *)
Definition votes_for (o : string) (q : list bytes) : nat :=
  length (List.filter (is_vote_for o) q).

(** The world after the loop's [except] branch has run on [ex]. *)
Definition reported (ex : exn) (w : world) : world :=
  asleep 1 (printed ("Error processing vote: " +:+ str ex) w).

Definition upsert_sent (choice : string) (c : connection) : list sql :=
  sent c ++ [INSERT_votes_ON_CONFLICT_DO_UPDATE choice].

(** What one pass of the loop can do, case by case. *)
Inductive pass_spec (e : Worker.env) (w : world) : outcome unit * world → Prop :=
| pass_blocked :
    Worker.redis_fault e = None → votes w = [] →
    pass_spec e w (Wait, w)
| pass_pop_fault ex :
    Worker.redis_fault e = Some ex →
    pass_spec e w (Return tt, reported ex w)
| pass_undecodable q entry ex :
    Worker.redis_fault e = None → votes w = q ++ [entry] →
    decode entry = Raise ex →
    pass_spec e w (Return tt, reported ex (set_votes q w))
| pass_discard q entry choice :
    Worker.redis_fault e = None → votes w = q ++ [entry] →
    decode entry = Return choice → choice ∉ ["cats"; "dogs"] →
    pass_spec e w (Return tt, set_votes q w)
| pass_pg_fault q entry choice ex :
    Worker.redis_fault e = None → votes w = q ++ [entry] →
    decode entry = Return choice → choice ∈ ["cats"; "dogs"] →
    Worker.pg_fault e = Some ex →
    pass_spec e w
      (Return tt,
       reported ex
         (set_conn {| stored := stored (conn w); txn := Some Aborted;
                      sent := sent (conn w) |}
            (set_votes q w)))
| pass_in_aborted q entry choice :
    Worker.redis_fault e = None → votes w = q ++ [entry] →
    decode entry = Return choice → choice ∈ ["cats"; "dogs"] →
    Worker.pg_fault e = None →
    txn (conn w) = Some Aborted →
    pass_spec e w
      (Return tt,
       reported
         (Exn "InFailedSqlTransaction"
              "current transaction is aborted, commands ignored until end of transaction block")
         (set_conn {| stored := stored (conn w); txn := Some Aborted;
                      sent := upsert_sent choice (conn w) |}
            (set_votes q w)))
| pass_sql_error q entry choice ex :
    Worker.redis_fault e = None → votes w = q ++ [entry] →
    decode entry = Return choice → choice ∈ ["cats"; "dogs"] →
    Worker.pg_fault e = None →
    txn (conn w) ≠ Some Aborted →
    run_sql (INSERT_votes_ON_CONFLICT_DO_UPDATE choice) (view (conn w)) = inl ex →
    pass_spec e w
      (Return tt,
       reported ex
         (set_conn {| stored := stored (conn w); txn := Some Aborted;
                      sent := upsert_sent choice (conn w) |}
            (set_votes q w)))
| pass_counted q entry choice db :
    Worker.redis_fault e = None → votes w = q ++ [entry] →
    decode entry = Return choice → choice ∈ ["cats"; "dogs"] →
    Worker.pg_fault e = None →
    txn (conn w) ≠ Some Aborted →
    run_sql (INSERT_votes_ON_CONFLICT_DO_UPDATE choice) (view (conn w)) = inr db →
    pass_spec e w
      (Return tt,
       printed ("counted: " +:+ choice)
         (set_conn {| stored := db; txn := None;
                      sent := upsert_sent choice (conn w) |}
            (set_votes q w))).

(** The rows stored after a step: as before, or with one option of the
    closed set upserted. *)
Inductive grows (d : database) : database → Prop :=
| grows_same d' : rows d' = rows d → grows d d'
| grows_upsert choice :
    choice ∈ ["cats"; "dogs"] →
    grows d (Some (<[choice := upserted (rows d !! choice)]> (rows d))).

(** The row of an option after [n] more upserts of it. *)
Definition row_after (n : nat) (row : option Z) : option Z :=
  match n with
  | 0 => row
  | S _ => Some (default 0%Z row + Z.of_nat n)%Z
  end.

(** Every row is for an option of the closed set and counts at least 1. *)
Definition rows_ok (d : database) : Prop :=
  ∀ o c, rows d !! o = Some c → o ∈ ["cats"; "dogs"] ∧ (1 ≤ c)%Z.

(** ** worker/worker.py, from its first line *)

Module Startup.
Import Worker.

(** [psycopg2.connect(...)]: one attempt, with the fault it runs into, if
    any. Before the worker is connected, [conn w] stands for the server:
    only its [stored] rows matter, and a successful attempt gives a fresh
    connection to them. *)
Definition pg_connect (fault : option exn) : M connection :=
  match fault with
  | Some e => raise e
  | None => λ w, (Return (connect (stored (conn w))), w)
  end.

(** [get_conn()], with the faults of its successive attempts. When they
    run out before an attempt succeeds the call has not returned: it is
    still retrying. *)
Fixpoint get_conn (attempts : list (option exn)) : M connection :=
  match attempts with
  | [] => λ w, (Wait, w)
  | fault :: later =>
    try_except
      (pg_connect fault)
      (λ e, print ("Waiting for database... " +:+ str e) ;;
            sleep 2 ;;
            get_conn later)
  end.

(** [main()]: [conn = get_conn()], then the rest of [main] on it. *)
Definition start (attempts : list (option exn)) (fault : option exn)
    (envs : list env) (w : world) : world :=
  match get_conn attempts w with
  | (Return c, w') => main fault envs (set_conn c w')
  | (_, w') => w'
  end.

End Startup.

(** ** worker/worker.py, the password of the database *)

Module Config.

(** [os.getenv(key, default)] on the environment of the process. *)
Definition getenv (environ : gmap string string) (key : string)
    (default : option string) : option string :=
  match environ !! key with
  | Some value => Some value
  | None => default
  end.

(** What a path names: a file, with the text [f.read()] gives, or a
    directory. *)
Inductive node :=
| File (text : string)
| Directory.

(** The characters [str.strip()] removes, in UTF-8: U+0009..U+000D,
    U+001C..U+0020; U+0085, U+00A0; U+1680, U+2000..U+200A, U+2028,
    U+2029, U+202F, U+205F, U+3000. *)
Definition ws1 (a : N) : bool := between 9 13 a || between 28 32 a.
Definition ws2 (a b : N) : bool :=
  ((a =? 194) && ((b =? 133) || (b =? 160)))%N.
Definition ws3 (a b c : N) : bool :=
  ((a =? 225) && (b =? 154) && (c =? 128))%N
  || ((a =? 226) && (b =? 128)
      && (between 128 138 c || (c =? 168) || (c =? 169) || (c =? 175)))%N
  || ((a =? 226) && (b =? 129) && (c =? 159))%N
  || ((a =? 227) && (b =? 128) && (c =? 128))%N.

(** [s.lstrip()] *)
Fixpoint lstrip (s : string) : string :=
  match s with
  | EmptyString => s
  | String a s1 =>
    if ws1 (Ascii.N_of_ascii a) then lstrip s1 else
    match s1 with
    | EmptyString => s
    | String b s2 =>
      if ws2 (Ascii.N_of_ascii a) (Ascii.N_of_ascii b) then lstrip s2 else
      match s2 with
      | EmptyString => s
      | String c s3 =>
        if ws3 (Ascii.N_of_ascii a) (Ascii.N_of_ascii b) (Ascii.N_of_ascii c) then lstrip s3
        else s
      end
    end
  end.

(** [s.rstrip()]: cut where nothing but whitespace follows. *)
Fixpoint rstrip (s : string) : string :=
  match s with
  | EmptyString => s
  | String a s1 =>
    if decide (lstrip s = "") then "" else String a (rstrip s1)
  end.

(** [s.strip()] *)
Definition strip (s : string) : string := rstrip (lstrip s).

(** Lines 11 to 16: [DB_PASS] once the module is loaded. [read_fault] is
    what opening or reading the file runs into, if anything. *)
Definition DB_PASS (environ : gmap string string) (fs : gmap string node)
    (read_fault : option exn) : outcome (option string) :=
  let DB_PASS := getenv environ "POSTGRES_PASSWORD" None in
  let DB_PASS_FILE := getenv environ "POSTGRES_PASSWORD_FILE" None in
  match DB_PASS, DB_PASS_FILE with
  | None, Some path =>
    if bool_decide (path ≠ "") && bool_decide (is_Some (fs !! path)) then
      match read_fault, fs !! path with
      | Some e, _ => Raise e
      | None, Some (File text) => Return (Some (strip text))
      | None, _ => Raise (Exn "IsADirectoryError" "Is a directory")
      end
    else Return DB_PASS
  | _, _ => Return DB_PASS
  end.

End Config.

(** ** Counting over runs *)

(** How many lines of the output say that a vote for [o] was counted. *)
Definition counted_lines (o : string) (out : list string) : nat :=
  length (List.filter (λ line, bool_decide (line = "counted: " +:+ o)) out).

(** How many votes for [o] the actions put on the list. *)
Fixpoint pushed_for (o : string) (acts : list System.action) : nat :=
  match acts with
  | [] => 0
  | System.PostVote None f :: acts' =>
    (if bool_decide (App.form_get "vote" f = Some o) then 1 else 0)
    + pushed_for o acts'
  | System.ClientPush entry :: acts' =>
    (if is_vote_for o entry then 1 else 0) + pushed_for o acts'
  | _ :: acts' => pushed_for o acts'
  end.

(** The actions of the intake. *)
Definition of_intake (a : System.action) : bool :=
  match a with
  | System.PostVote _ _ | System.GetHealth _ => true
  | _ => false
  end.

(** The actions of the intake and of the worker: no other client. *)
Definition of_system (a : System.action) : bool :=
  match a with
  | System.ClientPush _ => false
  | _ => true
  end.

(** The world after [get_conn] has seen the attempts fail with [errs]. *)
Definition waiting (errs : list exn) (w : world) : world :=
  {| votes := votes w; conn := conn w;
     stdout := stdout w ++ map (λ e, "Waiting for database... " +:+ str e) errs;
     slept := slept w + 2 * length errs |}.

(** What is left of a text after one leading whitespace character, if it
    starts with one. *)
Definition ws_head (s : string) : option string :=
  match s with
  | EmptyString => None
  | String a s1 =>
    if Config.ws1 (Ascii.N_of_ascii a) then Some s1 else
    match s1 with
    | EmptyString => None
    | String b s2 =>
      if Config.ws2 (Ascii.N_of_ascii a) (Ascii.N_of_ascii b) then Some s2 else
      match s2 with
      | EmptyString => None
      | String c s3 =>
        if Config.ws3 (Ascii.N_of_ascii a) (Ascii.N_of_ascii b)
                      (Ascii.N_of_ascii c)
        then Some s3 else None
      end
    end
  end.

(** The line feed, U+000A. *)
Definition newline : string := String (Ascii.ascii_of_N 10) "".

(** A connection without uncommitted changes: no transaction is open, or
    the open one is aborted. The worker's connection is so between calls. *)
Definition settled (c : connection) : Prop :=
  txn c = None ∨ txn c = Some Aborted.

(** What the passes of the worker took off the list along a run, in the
    order they took it: per pass, the tail the list has lost. *)
Fixpoint dequeued (acts : list System.action) (w : world) : list bytes :=
  match acts with
  | [] => []
  | a :: acts' =>
    match a with
    | System.LoopPass _ => drop (length (votes (System.step a w))) (votes w)
    | _ => []
    end ++ dequeued acts' (System.step a w)
  end.

(** What was put on the list along a run, in the order it was put: the
    valid votes of POST /vote that the store took, the pushes of others. *)
Fixpoint enqueued (acts : list System.action) : list bytes :=
  match acts with
  | [] => []
  | System.PostVote fault f :: acts' =>
    System.accepted [System.Submit fault f] ++ enqueued acts'
  | System.ClientPush entry :: acts' => entry :: enqueued acts'
  | _ :: acts' => enqueued acts'
  end.

(** The requests that post the votes [vs], one by one. *)
Definition posts (vs : list string) : list System.action :=
  map (λ v, System.PostVote None [("vote", v)]) vs.

(** * Properties *)

Section Basics.

Lemma pop_tail_snoc (q : list bytes) (v : bytes) :
  Redis.pop_tail (q ++ [v]) = Some (q, v).
Proof.
  unfold Redis.pop_tail. rewrite rev_app_distr. simpl.
  now rewrite rev_involutive.
Qed.

Lemma pop_tail_None (q : list bytes) : Redis.pop_tail q = None → q = [].
Proof.
  destruct q as [|v q] using rev_ind; [done|].
  now rewrite pop_tail_snoc.
Qed.

Lemma pop_tail_Some (q q' : list bytes) (v : bytes) :
  Redis.pop_tail q = Some (q', v) → q = q' ++ [v].
Proof.
  destruct q as [|x q _] using rev_ind; [done|].
  rewrite pop_tail_snoc. congruence.
Qed.

Lemma decode_Return_encode (entry : bytes) (s : string) :
  decode entry = Return s → entry = encode s.
Proof.
  unfold decode, encode. destruct (utf8_valid entry); [|done].
  intros [= <-]. now rewrite list_byte_of_string_of_list_byte.
Qed.

Lemma decode_not_Wait (entry : bytes) : decode entry ≠ Wait.
Proof. unfold decode. now destruct (utf8_valid entry). Qed.

Lemma py_in_true {A} `{EqDecision A} (x : A) (l : list A) :
  py_in x l = true ↔ x ∈ l.
Proof. unfold py_in. apply bool_decide_eq_true. Qed.

Lemma py_in_false {A} `{EqDecision A} (x : A) (l : list A) :
  py_in x l = false ↔ x ∉ l.
Proof. unfold py_in. apply bool_decide_eq_false. Qed.

End Basics.

Section LoopBody.
Import Worker.

#[local] Arguments run_sql : simpl never.

Lemma options_nul_free (choice : string) :
  choice ∈ ["cats"; "dogs"] →
  existsb has_nul (parameters (INSERT_votes_ON_CONFLICT_DO_UPDATE choice)) = false.
Proof.
  intros Hin. repeat (apply elem_of_cons in Hin as [->|Hin]); [done..|].
  now apply elem_of_nil in Hin.
Qed.

Lemma view_settled (c : connection) : settled c → view c = stored c.
Proof. unfold view. now intros [-> | ->]. Qed.

Lemma settled_not_aborted (c : connection) :
  settled c → txn c ≠ Some Aborted → txn c = None.
Proof. now intros [H|H] Hne. Qed.

Lemma loop_body_spec (e : env) (w : world) : pass_spec e w (loop_body e w).
Proof.
  unfold loop_body, try_except, mbind, M_bind, bind, Redis.brpop.
  destruct (redis_fault e) as [ex|] eqn:Hr; simpl.
  { unfold raise. simpl. now apply pass_pop_fault. }
  destruct (Redis.pop_tail (votes w)) as [[q entry]|] eqn:Hpop.
  2:{ apply pop_tail_None in Hpop. now apply pass_blocked. }
  apply pop_tail_Some in Hpop. unfold lift.
  destruct (decode entry) as [choice|ex|] eqn:Hd; simpl.
  3:{ now apply decode_not_Wait in Hd. }
  2:{ eapply pass_undecodable; eauto. }
  destruct (py_in choice ["cats"; "dogs"]) eqn:Hin; simpl.
  2:{ apply py_in_false in Hin. eapply pass_discard; eauto. }
  apply py_in_true in Hin.
  unfold increment_vote, execute, mbind, M_bind, bind.
  rewrite (options_nul_free choice Hin).
  destruct (pg_fault e) as [ex|] eqn:Hp; simpl.
  { eapply pass_pg_fault; eauto. }
  destruct (txn (conn w)) as [[db0|]|] eqn:Htxn; simpl.
  2:{ eapply pass_in_aborted; eauto. }
  - destruct (run_sql (INSERT_votes_ON_CONFLICT_DO_UPDATE choice) (view (conn w)))
      as [ex|db] eqn:Hsql; simpl.
    + eapply pass_sql_error; eauto. congruence.
    + eapply pass_counted; eauto. congruence.
  - destruct (run_sql (INSERT_votes_ON_CONFLICT_DO_UPDATE choice) (view (conn w)))
      as [ex|db] eqn:Hsql; simpl.
    + eapply pass_sql_error; eauto. congruence.
    + eapply pass_counted; eauto. congruence.
Qed.

End LoopBody.

(** ** The intake *)

Section Intake.
Import App.

Lemma py_in_Some (v a b : string) :
  py_in (Some v) [Some a; Some b] = py_in v [a; b].
Proof.
  unfold py_in. apply bool_decide_ext.
  rewrite !elem_of_cons, !elem_of_nil.
  split; (intros [H|[H|[]]]; [left|right; left]; congruence).
Qed.

Lemma vote_invalid (fault : option exn) (f : form) (w : world) :
  py_in (form_get "vote" f) [Some "cats"; Some "dogs"] = false →
  vote fault f w = (Return (redirect "/"), w).
Proof. intros H. unfold vote. now rewrite H. Qed.

Lemma vote_valid (fault : option exn) (f : form) (v : string) (w : world) :
  form_get "vote" f = Some v → v ∈ ["cats"; "dogs"] →
  vote fault f w =
  match fault with
  | Some e => (Raise e, w)
  | None => (Return (redirect "/"), set_votes (encode v :: votes w) w)
  end.
Proof.
  intros Hf Hv. unfold vote. rewrite Hf, py_in_Some.
  apply py_in_true in Hv. rewrite Hv. simpl.
  now destruct fault.
Qed.

(** C3. POST /vote with field value [v]: when [v] is "cats" or "dogs" and
    the store takes the push, the encoded value is put on the list, whose
    length grows by exactly 1, and the answer is the redirect to "/";
    for any other [v] the world is unchanged and the answer is the very
    same redirect, whatever the state of the store. *)
Theorem vote_pushes_valid_only (f : form) (v : string) (w : world) :
  form_get "vote" f = Some v →
  (v ∈ ["cats"; "dogs"] →
     vote None f w =
       (Return (redirect "/"), set_votes (encode v :: votes w) w) ∧
     length (votes (snd (vote None f w))) = S (length (votes w))) ∧
  (v ∉ ["cats"; "dogs"] →
     ∀ fault, vote fault f w = (Return (redirect "/"), w)).
Proof.
  intros Hf. split.
  - intros Hv. rewrite (vote_valid None f v w Hf Hv). now split.
  - intros Hv fault. apply vote_invalid.
    rewrite Hf, py_in_Some. now apply py_in_false.
Qed.

Lemma vote_pushes_valid_only_witness :
  vote None [("vote", "cats")] (boot [] None) =
    (Return (redirect "/"), boot [encode "cats"] None) ∧
  vote None [("vote", "elephants")] (boot [] None) =
    (Return (redirect "/"), boot [] None).
Proof.
  split.
  - destruct (vote_pushes_valid_only [("vote", "cats")] "cats" (boot [] None))
      as [Hvalid _]; [reflexivity|].
    destruct Hvalid as [Heq _]; [left|]. exact Heq.
  - destruct (vote_pushes_valid_only [("vote", "elephants")] "elephants"
                (boot [] None)) as [_ Hinvalid]; [reflexivity|].
    apply Hinvalid. intros Hin.
    repeat (apply elem_of_cons in Hin as [Hin|Hin]; [discriminate Hin|]).
    now apply elem_of_nil in Hin.
Defined.

(** C6 as the code has it. GET /health answers 200 with body
    [{status: "ok"}] when the ping succeeds, and 500 with body
    [{status: "error", detail: str(e)}] when the ping raises [e]; the
    detail is the text of the error, so it is non-empty when that text
    is. Either way the world (list and tally) is left as it was. *)
Theorem health_reports_ping (w : world) :
  health None w = (Return (jsonify 200 [("status", "ok")]), w) ∧
  ∀ e, health (Some e) w =
         (Return (jsonify 500 [("status", "error"); ("detail", str e)]), w) ∧
       status (jsonify 500 [("status", "error"); ("detail", str e)]) = 500 ∧
       (str e ≠ "" →
        ∃ d, d ≠ "" ∧
             fst (health (Some e) w) =
               Return (jsonify 500 [("status", "error"); ("detail", d)])).
Proof.
  split; [reflexivity|]. intros e. split; [reflexivity|].
  split; [reflexivity|]. intros Hne. now exists (str e).
Qed.

Lemma health_reports_ping_witness :
  ∃ d, d ≠ "" ∧
       fst (health (Some (Exn "ConnectionError" "Connection refused"))
                   (boot [] None)) =
         Return (jsonify 500 [("status", "error"); ("detail", d)]).
Proof.
  apply (health_reports_ping (boot [] None)). discriminate.
Defined.

(** C6 as stated fails: a ping that raises an error whose text is empty
    gets a 500 answer whose detail is empty. *)
Lemma health_detail_may_be_empty :
  fst (health (Some (Exn "ConnectionError" "")) (boot [] None)) =
    Return (jsonify 500 [("status", "error"); ("detail", "")]) ∧
  ¬ ∃ d, d ≠ "" ∧
         fst (health (Some (Exn "ConnectionError" "")) (boot [] None)) =
           Return (jsonify 500 [("status", "error"); ("detail", d)]).
Proof.
  split; [reflexivity|]. intros (d & Hd & Heq).
  cbn in Heq. inversion Heq as [Hempty]. now apply Hd.
Qed.

(** C7. A valid vote whose push raises [e]: the handler raises [e] too.
    It returns nothing, in particular no redirect, and the list is as it
    was. *)
Theorem vote_push_error_propagates
    (f : form) (v : string) (e : exn) (w : world) :
  form_get "vote" f = Some v → v ∈ ["cats"; "dogs"] →
  vote (Some e) f w = (Raise e, w) ∧
  ∀ r, fst (vote (Some e) f w) ≠ Return r.
Proof.
  intros Hf Hv. rewrite (vote_valid (Some e) f v w Hf Hv).
  split; [reflexivity|]. intros r. simpl. discriminate.
Qed.

Lemma vote_push_error_propagates_witness :
  vote (Some (Exn "ConnectionError" "Connection refused"))
       [("vote", "dogs")] (boot [] None) =
    (Raise (Exn "ConnectionError" "Connection refused"), boot [] None).
Proof.
  apply (vote_push_error_propagates [("vote", "dogs")] "dogs").
  - reflexivity.
  - right. left.
Defined.

(** C9. POST /vote without any "vote" field: whatever the state of the
    store, the world is unchanged and the answer is the redirect to "/",
    the outcome of every request with an invalid value. *)
Theorem vote_missing_field (f : form) (fault : option exn) (w : world) :
  form_get "vote" f = None →
  vote fault f w = (Return (redirect "/"), w) ∧
  ∀ f' v, form_get "vote" f' = Some v → v ∉ ["cats"; "dogs"] →
          vote fault f' w = vote fault f w.
Proof.
  intros Hf.
  assert (Hnone : vote fault f w = (Return (redirect "/"), w)).
  { apply vote_invalid. now rewrite Hf. }
  split; [exact Hnone|]. intros f' v Hf' Hv. rewrite Hnone.
  apply vote_invalid. rewrite Hf', py_in_Some. now apply py_in_false.
Qed.

Lemma vote_missing_field_witness :
  vote None [("choice", "cats")] (boot [] None) =
    (Return (redirect "/"), boot [] None).
Proof.
  apply (vote_missing_field [("choice", "cats")] None (boot [] None)).
  reflexivity.
Defined.

End Intake.

(** ** The upsert *)

Section Upsert.
Import Worker.

Lemma run_sql_upsert (choice : string) (t : gmap string Z) :
  (∀ c, t !! choice = Some c → (c < INT4_MAX)%Z) →
  run_sql (INSERT_votes_ON_CONFLICT_DO_UPDATE choice) (Some t) =
    inr (Some (<[choice := upserted (t !! choice)]> t)).
Proof.
  intros Hlt. simpl. destruct (t !! choice) as [c|] eqn:Hc; [|done].
  specialize (Hlt c eq_refl).
  destruct (Z.leb_spec (c + 1) INT4_MAX); [done|lia].
Qed.

Lemma run_sql_upsert_inr (choice : string) (db db' : database) :
  run_sql (INSERT_votes_ON_CONFLICT_DO_UPDATE choice) db = inr db' →
  ∃ t, db = Some t ∧
       db' = Some (<[choice := upserted (t !! choice)]> t) ∧
       (∀ c, t !! choice = Some c → (c < INT4_MAX)%Z).
Proof.
  destruct db as [t|]; simpl; [|done].
  destruct (t !! choice) as [c|] eqn:Hc.
  - destruct (Z.leb_spec (c + 1) INT4_MAX); [|done].
    intros [= <-]. exists t. rewrite Hc. split_and!; [done..|].
    intros c' [= <-]. lia.
  - intros [= <-]. exists t. rewrite Hc. split_and!; [done..|]. done.
Qed.

(** C2 as the code has it. For "cats" and for "dogs", on a connection
    with no transaction open or aborted, and a table in which the option
    has no row or a row whose count is below the INTEGER maximum
    2147483647: one call of [increment_vote] that reaches the store
    returns, leaves the row (option, 1) when there was none and the old
    count plus exactly 1 otherwise, and leaves every other row as it was.
    It does so by sending one statement, the INSERT .. ON CONFLICT DO
    UPDATE, and committing it; nothing else in the world changes. *)
Theorem increment_vote_upserts
    (choice : string) (t : gmap string Z) (w : world) :
  choice ∈ ["cats"; "dogs"] →
  txn (conn w) = None →
  stored (conn w) = Some t →
  (∀ c, t !! choice = Some c → (c < INT4_MAX)%Z) →
  let w' := snd (increment_vote None choice w) in
  fst (increment_vote None choice w) = Return tt ∧
  (t !! choice = None → rows (stored (conn w')) !! choice = Some 1%Z) ∧
  (∀ c, t !! choice = Some c →
        rows (stored (conn w')) !! choice = Some (c + 1)%Z) ∧
  (∀ o, o ≠ choice → rows (stored (conn w')) !! o = t !! o) ∧
  txn (conn w') = None ∧
  sent (conn w') = sent (conn w) ++ [INSERT_votes_ON_CONFLICT_DO_UPDATE choice] ∧
  votes w' = votes w ∧ stdout w' = stdout w ∧ slept w' = slept w.
Proof.
  intros Hin Hidle Hst Hlt.
  unfold increment_vote, execute, commit, mbind, M_bind, bind.
  rewrite (options_nul_free choice Hin), Hidle.
  unfold view. rewrite Hidle, Hst, (run_sql_upsert choice t Hlt). simpl.
  split_and!; try reflexivity.
  - intros Hnone. rewrite Hnone. simpl. apply lookup_insert_eq.
  - intros c Hc. rewrite Hc. simpl. apply lookup_insert_eq.
  - intros o Hne. now apply lookup_insert_ne.
Qed.

Lemma increment_vote_upserts_witness :
  let w := boot [] (Some {[ "dogs" := 7%Z ]}) in
  let w' := snd (increment_vote None "cats" w) in
  let w'' := snd (increment_vote None "cats" w') in
  rows (stored (conn w')) !! "cats" = Some 1%Z ∧
  rows (stored (conn w'')) !! "cats" = Some 2%Z ∧
  rows (stored (conn w'')) !! "dogs" = Some 7%Z.
Proof.
  intros w w' w''.
  assert (Hcats : "cats" ∈ ["cats"; "dogs"]) by left.
  assert (H1 : stored (conn w) = Some {[ "dogs" := 7%Z ]}) by reflexivity.
  assert (H2 : stored (conn w') =
               Some (<[ "cats" := 1%Z ]> {[ "dogs" := 7%Z ]})) by reflexivity.
  pose proof (increment_vote_upserts "cats" _ w Hcats eq_refl H1) as Hfirst.
  pose proof (increment_vote_upserts "cats" _ w' Hcats eq_refl H2) as Hsecond.
  simpl in Hfirst, Hsecond.
  destruct Hfirst as (_ & Hnew & _).
  { intros c Hc. vm_compute in Hc. discriminate Hc. }
  destruct Hsecond as (_ & _ & Hinc & Hother & _).
  { intros c Hc. vm_compute in Hc. injection Hc as <-. reflexivity. }
  split_and!.
  - apply Hnew. reflexivity.
  - apply (Hinc 1%Z). reflexivity.
  - rewrite Hother by discriminate. reflexivity.
Defined.

(** C2 as stated fails in two table states. On a row that already holds
    the INTEGER maximum the upsert raises and the count stays what it was.
    And once that statement has failed, the transaction is aborted: the
    next upsert, of an option that has no row, raises as well and inserts
    nothing. *)
Lemma increment_vote_raises :
  let w := boot [] (Some {[ "cats" := INT4_MAX ]}) in
  let w1 := snd (increment_vote None "cats" w) in
  let w2 := snd (increment_vote None "dogs" w1) in
  fst (increment_vote None "cats" w) =
    Raise (Exn "NumericValueOutOfRange" "integer out of range") ∧
  rows (stored (conn w1)) !! "cats" = Some INT4_MAX ∧
  rows (stored (conn w1)) !! "cats" ≠ Some (INT4_MAX + 1)%Z ∧
  rows (stored (conn w1)) !! "dogs" = None ∧
  (∃ ex, fst (increment_vote None "dogs" w1) = Raise ex) ∧
  rows (stored (conn w2)) !! "dogs" = None ∧
  rows (stored (conn w2)) !! "dogs" ≠ Some 1%Z.
Proof.
  split_and!; try reflexivity.
  - vm_compute. discriminate.
  - eexists. reflexivity.
  - vm_compute. discriminate.
Qed.

End Upsert.

(** ** One pass of the loop *)

Section Pass.
Import Worker.

(** C4. A pass of the loop that pops an entry which decodes to a value
    other than "cats" and "dogs" returns normally and only removes the
    entry from the list: the connection (stored rows, transaction,
    statements sent) is untouched, nothing is printed and the [except]
    branch, with its sleep, is not taken. *)
Theorem loop_discards_invalid
    (e : env) (q : list bytes) (entry : bytes) (choice : string) (w : world) :
  redis_fault e = None →
  votes w = q ++ [entry] →
  decode entry = Return choice →
  choice ∉ ["cats"; "dogs"] →
  loop_body e w = (Return tt, set_votes q w) ∧
  conn (snd (loop_body e w)) = conn w ∧
  stdout (snd (loop_body e w)) = stdout w ∧
  slept (snd (loop_body e w)) = slept w.
Proof.
  intros Hr Hq Hd Hin.
  assert (Heq : loop_body e w = (Return tt, set_votes q w)).
  { unfold loop_body, try_except, mbind, M_bind, bind, Redis.brpop, lift.
    rewrite Hr, Hq, pop_tail_snoc, Hd.
    apply py_in_false in Hin. now rewrite Hin. }
  rewrite Heq. now split_and!.
Qed.

Lemma loop_discards_invalid_witness :
  let w := boot [encode "cats"; encode "elephants"]
                (Some {[ "cats" := 3%Z ]}) in
  loop_body {| redis_fault := None; pg_fault := None |} w =
    (Return tt, boot [encode "cats"] (Some {[ "cats" := 3%Z ]})).
Proof.
  intros w.
  apply (loop_discards_invalid _ [encode "cats"] (encode "elephants")
           "elephants" w).
  - reflexivity.
  - reflexivity.
  - reflexivity.
  - intros Hin.
    repeat (apply elem_of_cons in Hin as [Hin|Hin]; [discriminate Hin|]).
    now apply elem_of_nil in Hin.
Defined.

Lemma pass_settled (e : env) (w : world) :
  settled (conn w) → settled (conn (snd (loop_body e w))).
Proof.
  intros Hidle. destruct (loop_body_spec e w); simpl; try done;
    try (now right); now left.
Qed.

Lemma pass_slept (e : env) (w : world) :
  slept w ≤ slept (snd (loop_body e w)).
Proof. destruct (loop_body_spec e w); simpl; lia. Qed.

Lemma pass_grows (e : env) (w : world) :
  settled (conn w) →
  grows (stored (conn w)) (stored (conn (snd (loop_body e w)))).
Proof.
  intros Hidle.
  destruct (loop_body_spec e w) as
    [ | | | | | | | q entry choice db Hr Hq Hd Hin Hp Hok Hsql];
    simpl; try (now apply grows_same).
  rewrite (view_settled _ Hidle) in Hsql.
  apply run_sql_upsert_inr in Hsql as (t & Ht & -> & _).
  rewrite Ht. simpl. now apply (grows_upsert (Some t)).
Qed.

Lemma main_loop_cons (e : env) (envs : list env) (w : world) :
  main_loop (e :: envs) w =
  match fst (loop_body e w) with
  | Return _ => main_loop envs (snd (loop_body e w))
  | _ => snd (loop_body e w)
  end.
Proof. simpl. now destruct (loop_body e w) as [[| |] w']. Qed.

Lemma main_loop_slept (envs : list env) (w : world) :
  slept w ≤ slept (main_loop envs w).
Proof.
  revert w. induction envs as [|e envs IH]; intros w; [done|].
  rewrite main_loop_cons. pose proof (pass_slept e w) as Hs.
  destruct (fst (loop_body e w)); [|done..].
  specialize (IH (snd (loop_body e w))). lia.
Qed.

End Pass.

(** ** Draining the list *)

Section Drain.
Import Worker.

Lemma row_after_upserted (n : nat) (row : option Z) :
  row_after n (Some (upserted row)) = row_after (S n) row.
Proof.
  unfold row_after, upserted.
  destruct n as [|n], row as [c|]; simpl default; f_equal; lia.
Qed.

Lemma votes_for_snoc (o : string) (q : list bytes) (entry : bytes) :
  votes_for o (q ++ [entry]) =
  votes_for o q + (if is_vote_for o entry then 1 else 0).
Proof.
  unfold votes_for. rewrite List.filter_app, length_app. simpl.
  now destruct (is_vote_for o entry).
Qed.

Lemma votes_for_perm (o : string) (q q' : list bytes) :
  q ≡ₚ q' → votes_for o q = votes_for o q'.
Proof.
  unfold votes_for.
  induction 1 as [|x l l' _ IH|x y l|l l' l'' _ IH1 _ IH2]; simpl.
  - reflexivity.
  - destruct (is_vote_for o x); simpl; now rewrite IH.
  - now destruct (is_vote_for o x), (is_vote_for o y).
  - now rewrite IH1.
Qed.

(** The votes for "cats" are the entries [b"cats"], and likewise for any
    option whose name is well-formed UTF-8. *)
Lemma is_vote_for_encode (o : string) (entry : bytes) :
  utf8_valid (encode o) = true →
  is_vote_for o entry = true ↔ entry = encode o.
Proof.
  intros Hvalid. unfold is_vote_for. split.
  - destruct (decode entry) as [c| |] eqn:Hd; [|done..].
    intros Hc. apply bool_decide_eq_true in Hc as ->.
    now apply decode_Return_encode.
  - intros ->. unfold decode, encode in *. rewrite Hvalid.
    rewrite string_of_list_byte_of_string. now apply bool_decide_eq_true.
Qed.

Lemma is_vote_for_decoded (o choice : string) (entry : bytes) :
  decode entry = Return choice →
  is_vote_for o entry = bool_decide (choice = o).
Proof. intros Hd. unfold is_vote_for. now rewrite Hd. Qed.

(** A run of the loop that pops every entry and never takes the [except]
    branch leaves, for each option, the row it had, upserted once per vote
    for that option. *)
Lemma main_loop_drains (o : string) (envs : list env) (w : world) :
  o ∈ ["cats"; "dogs"] →
  settled (conn w) →
  length envs = length (votes w) →
  slept (main_loop envs w) = slept w →
  votes (main_loop envs w) = [] ∧
  rows (stored (conn (main_loop envs w))) !! o =
    row_after (votes_for o (votes w)) (rows (stored (conn w)) !! o).
Proof.
  intros Ho. revert w.
  induction envs as [|e envs IH]; intros w Hidle Hlen Hslept.
  { simpl in *. symmetry in Hlen. apply nil_length_inv in Hlen.
    rewrite Hlen. now split. }
  rewrite main_loop_cons in Hslept |- *.
  pose proof (pass_settled e w Hidle) as Hidle'.
  pose proof (main_loop_slept envs (snd (loop_body e w))) as Hmono.
  destruct (loop_body_spec e w) as
    [Hr Hq | ex Hr | q entry ex Hr Hq Hd | q entry choice Hr Hq Hd Hin
     | q entry choice ex Hr Hq Hd Hin Hp
     | q entry choice Hr Hq Hd Hin Hp Hab
     | q entry choice ex Hr Hq Hd Hin Hp Hok Hsql
     | q entry choice db Hr Hq Hd Hin Hp Hok Hsql];
    simpl fst in *; simpl snd in *.
  - rewrite Hq in Hlen. discriminate Hlen.
  - simpl in Hmono. lia.
  - simpl in Hmono. lia.
  - rewrite Hq, length_app in Hlen. simpl in Hlen.
    destruct (IH (set_votes q w)) as [Hempty Hrow]; [done|simpl; lia|done|].
    split; [done|]. rewrite Hrow, Hq, votes_for_snoc. simpl.
    rewrite (is_vote_for_decoded o choice entry Hd).
    rewrite bool_decide_eq_false_2 by (intros ->; contradiction).
    now rewrite Nat.add_0_r.
  - simpl in Hmono. lia.
  - simpl in Hmono. lia.
  - simpl in Hmono. lia.
  - rewrite Hq, length_app in Hlen. simpl in Hlen.
    rewrite (view_settled _ Hidle) in Hsql.
    apply run_sql_upsert_inr in Hsql as (t & Ht & -> & _).
    match type of Hslept with
    | slept (main_loop envs ?w1) = _ =>
      destruct (IH w1) as [Hempty Hrow]; [done|simpl; lia|done|]
    end.
    split; [done|]. rewrite Hrow, Hq, votes_for_snoc, Ht. simpl.
    rewrite (is_vote_for_decoded o choice entry Hd).
    destruct (decide (choice = o)) as [->|Hne].
    + rewrite bool_decide_eq_true_2 by done.
      rewrite lookup_insert_eq, row_after_upserted.
      f_equal. lia.
    + rewrite bool_decide_eq_false_2 by done.
      rewrite lookup_insert_ne by done. now rewrite Nat.add_0_r.
Qed.

Lemma votes_for_snoc_le (o : string) (q : list bytes) (entry : bytes) :
  votes_for o q ≤ votes_for o (q ++ [entry]).
Proof. rewrite votes_for_snoc. lia. Qed.

(** Nothing fails in a run in which no fault is injected, every entry is
    well-formed UTF-8, the table exists and no count would pass the
    INTEGER maximum. *)
Lemma clean_run_never_fails (envs : list env) (w : world) (t : gmap string Z) :
  Forall (λ e, redis_fault e = None ∧ pg_fault e = None) envs →
  Forall (λ entry, utf8_valid entry = true) (votes w) →
  txn (conn w) = None →
  stored (conn w) = Some t →
  (∀ o, o ∈ ["cats"; "dogs"] →
        (tally (Some t) o + Z.of_nat (votes_for o (votes w)) ≤ INT4_MAX)%Z) →
  slept (main_loop envs w) = slept w.
Proof.
  revert w t.
  induction envs as [|e envs IH]; intros w t Henvs Hutf Hidle Ht Hroom;
    [done|].
  apply Forall_cons in Henvs as [[He1 He2] Henvs].
  rewrite main_loop_cons.
  destruct (loop_body_spec e w) as
    [Hr Hq | ex Hr | q entry ex Hr Hq Hd | q entry choice Hr Hq Hd Hin
     | q entry choice ex Hr Hq Hd Hin Hp
     | q entry choice Hr Hq Hd Hin Hp Hab
     | q entry choice ex Hr Hq Hd Hin Hp Hok Hsql
     | q entry choice db Hr Hq Hd Hin Hp Hok Hsql];
    cbn [fst snd]; try congruence.
  - rewrite Hq in Hutf. apply Forall_app in Hutf as [_ Hentry].
    apply Forall_inv in Hentry. simpl in Hentry.
    unfold decode in Hd. rewrite Hentry in Hd. discriminate Hd.
  - rewrite Hq in Hutf. apply Forall_app in Hutf as [Hutf _].
    rewrite (IH (set_votes q w) t); try done.
    intros o Ho. specialize (Hroom o Ho). rewrite Hq in Hroom.
    pose proof (votes_for_snoc_le o q entry). simpl. lia.
  - exfalso. rewrite (view_settled _ (or_introl Hidle)), Ht in Hsql. simpl in Hsql.
    specialize (Hroom choice Hin).
    rewrite Hq, votes_for_snoc, (is_vote_for_decoded _ _ _ Hd) in Hroom.
    rewrite bool_decide_eq_true_2 in Hroom by done.
    unfold tally in Hroom. simpl in Hroom.
    destruct (t !! choice) as [c|]; [|done]. simpl in Hroom.
    destruct (Z.leb_spec (c + 1) INT4_MAX); [done|lia].
  - rewrite (view_settled _ (or_introl Hidle)) in Hsql.
    apply run_sql_upsert_inr in Hsql as (t' & Ht' & -> & _).
    assert (t' = t) as -> by congruence.
    rewrite Hq in Hutf. apply Forall_app in Hutf as [Hutf _].
    erewrite IH; [reflexivity|done|done|done|reflexivity|].
    intros o Ho. specialize (Hroom o Ho).
    rewrite Hq, votes_for_snoc, (is_vote_for_decoded _ _ _ Hd) in Hroom.
    unfold tally in *. simpl in *.
    destruct (decide (choice = o)) as [->|Hne].
    + rewrite bool_decide_eq_true_2 in Hroom by done.
      rewrite lookup_insert_eq. destruct (t !! o); simpl in *; lia.
    + rewrite bool_decide_eq_false_2 in Hroom by done.
      rewrite lookup_insert_ne by done. lia.
Qed.

(** C1. A run of the main loop that pops every entry of the list and in
    which nothing fails (the [except] branch is never taken), started on a
    table without a "cats" row: the list is drained and the "cats" count is
    exactly the number N of votes for "cats" that were in the list, held in
    a row as soon as N is not 0. Entries for other options may sit anywhere
    between them, and any reordering of the list gives the same row. *)
Theorem cats_tally_is_vote_count (envs : list env) (w : world) :
  txn (conn w) = None →
  rows (stored (conn w)) !! "cats" = None →
  length envs = length (votes w) →
  slept (main_loop envs w) = slept w →
  let n := votes_for "cats" (votes w) in
  let w' := main_loop envs w in
  votes w' = [] ∧
  tally (stored (conn w')) "cats" = Z.of_nat n ∧
  (n ≠ 0 → rows (stored (conn w')) !! "cats" = Some (Z.of_nat n)) ∧
  (∀ envs2 w2,
     txn (conn w2) = None →
     rows (stored (conn w2)) !! "cats" = None →
     votes w2 ≡ₚ votes w →
     length envs2 = length (votes w2) →
     slept (main_loop envs2 w2) = slept w2 →
     rows (stored (conn (main_loop envs2 w2))) !! "cats" =
     rows (stored (conn w')) !! "cats").
Proof.
  intros Hidle Hnone Hlen Hslept n w'.
  assert (Hcats : "cats" ∈ ["cats"; "dogs"]) by left.
  destruct (main_loop_drains "cats" envs w Hcats (or_introl Hidle) Hlen Hslept)
    as [Hempty Hrow].
  rewrite Hnone in Hrow. fold n in Hrow. fold w' in Hrow, Hempty.
  split_and!.
  - exact Hempty.
  - unfold tally. rewrite Hrow. clearbody n. destruct n; simpl; [done|lia].
  - intros Hn. rewrite Hrow. clearbody n. destruct n; [done|].
    reflexivity.
  - intros envs2 w2 Hidle2 Hnone2 Hperm Hlen2 Hslept2.
    destruct (main_loop_drains "cats" envs2 w2 Hcats (or_introl Hidle2) Hlen2 Hslept2)
      as [_ Hrow2].
    rewrite Hrow2, Hrow, Hnone2. unfold n.
    now rewrite (votes_for_perm "cats" _ _ Hperm).
Qed.

Lemma cats_tally_is_vote_count_witness :
  let e := {| redis_fault := None; pg_fault := None |} in
  let w := boot [encode "cats"; encode "dogs"; encode "elephants";
                 encode "cats"; encode "cats"] (Some ∅) in
  let w2 := boot [encode "dogs"; encode "cats"; encode "elephants";
                  encode "cats"; encode "cats"] (Some ∅) in
  votes (main_loop [e; e; e; e; e] w) = [] ∧
  rows (stored (conn (main_loop [e; e; e; e; e] w))) !! "cats" = Some 3%Z ∧
  rows (stored (conn (main_loop [e; e; e; e; e] w2))) !! "cats" =
  rows (stored (conn (main_loop [e; e; e; e; e] w))) !! "cats".
Proof.
  intros e w w2.
  destruct (cats_tally_is_vote_count [e; e; e; e; e] w)
    as (Hempty & _ & Hrow & Hperm).
  - reflexivity.
  - reflexivity.
  - reflexivity.
  - reflexivity.
  - split_and!.
    + exact Hempty.
    + apply Hrow. discriminate.
    + apply (Hperm [e; e; e; e; e] w2); try reflexivity.
      apply Permutation_swap.
Defined.

End Drain.

(** ** The two processes together *)

Section Interleaving.
Import App Worker System.

Lemma vote_frame (fault : option exn) (f : form) (w : world) :
  conn (snd (vote fault f w)) = conn w ∧
  stdout (snd (vote fault f w)) = stdout w ∧
  slept (snd (vote fault f w)) = slept w.
Proof.
  unfold vote.
  destruct (py_in (form_get "vote" f) [Some "cats"; Some "dogs"]); simpl;
    [|done].
  unfold mbind, M_bind, bind, Redis.lpush.
  now destruct fault, (form_get "vote" f).
Qed.

Lemma ensure_table_idle (fault : option exn) (w : world) :
  settled (conn w) →
  settled (conn (snd (ensure_table fault w))) ∧
  rows (stored (conn (snd (ensure_table fault w)))) = rows (stored (conn w)).
Proof.
  intros Hidle. unfold ensure_table, execute, commit, mbind, M_bind, bind.
  simpl. destruct fault; [split; [right|]; reflexivity|].
  unfold view. destruct Hidle as [-> | ->]; simpl.
  - split; [left|]; now destruct (stored (conn w)).
  - split; [right|]; reflexivity.
Qed.

Lemma step_idle (a : action) (w : world) :
  settled (conn w) → settled (conn (step a w)).
Proof.
  intros Hidle. destruct a as [fault f|fault|entry|fault|e]; simpl.
  - now rewrite (proj1 (vote_frame fault f w)).
  - now destruct fault.
  - done.
  - now apply ensure_table_idle.
  - now apply pass_settled.
Qed.

Lemma step_grows (a : action) (w : world) :
  settled (conn w) →
  grows (stored (conn w)) (stored (conn (step a w))).
Proof.
  intros Hidle. destruct a as [fault f|fault|entry|fault|e]; simpl.
  - rewrite (proj1 (vote_frame fault f w)). now apply grows_same.
  - destruct fault; now apply grows_same.
  - now apply grows_same.
  - apply grows_same. now apply ensure_table_idle.
  - now apply pass_grows.
Qed.

Lemma db_le_refl (d : database) : db_le d d.
Proof. intros o c Hc. exists c. split; [done|lia]. Qed.

Lemma db_le_trans (d1 d2 d3 : database) :
  db_le d1 d2 → db_le d2 d3 → db_le d1 d3.
Proof.
  intros H12 H23 o c Hc.
  destruct (H12 o c Hc) as (c2 & Hc2 & Hle2).
  destruct (H23 o c2 Hc2) as (c3 & Hc3 & Hle3).
  exists c3. split; [done|lia].
Qed.

Lemma grows_db_le (d d' : database) : grows d d' → db_le d d'.
Proof.
  intros Hg o c Hc. destruct Hg as [d2 Hsame|choice _].
  - exists c. rewrite Hsame. split; [done|lia].
  - simpl. destruct (decide (choice = o)) as [->|Hne].
    + rewrite lookup_insert_eq, Hc. simpl. exists (c + 1)%Z. split; [done|lia].
    + rewrite lookup_insert_ne by done. exists c. split; [done|lia].
Qed.

Lemma grows_tally_le (d d' : database) (o : string) :
  grows d d' → (tally d o ≤ tally d' o)%Z.
Proof.
  unfold tally. intros Hg. destruct Hg as [d2 Hsame|choice _].
  - rewrite Hsame. lia.
  - simpl. destruct (decide (choice = o)) as [->|Hne].
    + rewrite lookup_insert_eq. destruct (rows d !! o); simpl; lia.
    + rewrite lookup_insert_ne by done. lia.
Qed.

Lemma run_db_le (acts : list action) (w : world) :
  settled (conn w) →
  db_le (stored (conn w)) (stored (conn (run acts w))).
Proof.
  revert w. induction acts as [|a acts IH]; intros w Hidle.
  { apply db_le_refl. }
  simpl. eapply db_le_trans.
  - apply grows_db_le, (step_grows a w Hidle).
  - apply IH. now apply step_idle.
Qed.

Lemma run_tally_le (acts : list action) (w : world) (o : string) :
  settled (conn w) →
  (tally (stored (conn w)) o ≤ tally (stored (conn (run acts w))) o)%Z.
Proof.
  revert w. induction acts as [|a acts IH]; intros w Hidle; [simpl; lia|].
  simpl. pose proof (grows_tally_le _ _ o (step_grows a w Hidle)) as Hstep.
  specialize (IH (step a w) (step_idle a w Hidle)). lia.
Qed.

(** A pass that printed "counted: o" committed the upsert of [o]. *)
Lemma counted_row_exists (e : env) (o : string) (w : world) :
  settled (conn w) →
  stdout (snd (loop_body e w)) = stdout w ++ ["counted: " +:+ o] →
  is_Some (rows (stored (conn (snd (loop_body e w)))) !! o).
Proof.
  intros Hidle.
  destruct (loop_body_spec e w) as
    [ | | | | | | | q entry choice db Hr Hq Hd Hin Hp Hok Hsql]; simpl;
    intros Hout;
    try (apply app_inv_head in Hout; simpl in Hout; discriminate Hout);
    try (apply (f_equal length) in Hout; rewrite length_app in Hout;
         simpl in Hout; lia).
  apply app_inv_head in Hout. injection Hout as Hline.
  change (choice = o) in Hline. subst choice.
  rewrite (view_settled _ Hidle) in Hsql.
  apply run_sql_upsert_inr in Hsql as (t & Ht & -> & _).
  simpl. rewrite lookup_insert_eq. eauto.
Qed.

(** C8. From a connection with no open transaction, along every sequence
    of actions of the system ([ensure_table], passes of the main loop on
    whatever the list holds, votes, health checks, pushes of other
    clients): every row stays, with a count at least as large; read with
    "no row is count 0", no option's count decreases; and once a pass has
    committed a vote for an option, its row exists from then on. *)
Theorem tally_never_decreases (acts : list action) (w : world) :
  txn (conn w) = None →
  db_le (stored (conn w)) (stored (conn (run acts w))) ∧
  (∀ o, (tally (stored (conn w)) o ≤ tally (stored (conn (run acts w))) o)%Z) ∧
  (∀ e o, stdout (step (LoopPass e) w) = stdout w ++ ["counted: " +:+ o] →
          is_Some (rows (stored (conn (run acts (step (LoopPass e) w)))) !! o)) ∧
  (∀ o, rows (stored (conn w)) !! o = None → tally (stored (conn w)) o = 0%Z).
Proof.
  intros Hidle0. assert (Hidle : settled (conn w)) by now left.
  split_and!.
  - now apply run_db_le.
  - intros o. now apply run_tally_le.
  - intros e o Hout.
    destruct (counted_row_exists e o w Hidle Hout) as [c Hc].
    destruct (run_db_le acts (step (LoopPass e) w)
                (step_idle (LoopPass e) w Hidle) o c Hc) as (c' & Hc' & _).
    eauto.
  - intros o Hnone. unfold tally. now rewrite Hnone.
Qed.

Lemma tally_never_decreases_witness :
  let e := {| redis_fault := None; pg_fault := None |} in
  let w := boot [encode "dogs"; encode "cats"] (Some {[ "dogs" := 4%Z ]}) in
  let acts := [PostVote None [("vote", "dogs")]; LoopPass e;
               EnsureTable None; LoopPass e; LoopPass e] in
  (tally (stored (conn w)) "dogs" ≤ tally (stored (conn (run acts w))) "dogs")%Z ∧
  is_Some (rows (stored (conn (run acts (step (LoopPass e) w)))) !! "cats") ∧
  tally (stored (conn w)) "cats" = 0%Z.
Proof.
  intros e w acts.
  destruct (tally_never_decreases acts w) as (_ & Hle & Hrow & Hzero).
  - reflexivity.
  - split_and!.
    + apply Hle.
    + apply Hrow. reflexivity.
    + apply Hzero. reflexivity.
Defined.

Lemma grows_rows_ok (d d' : database) : grows d d' → rows_ok d → rows_ok d'.
Proof.
  intros Hg Hok o c. destruct Hg as [d2 Hsame|choice Hin].
  - rewrite Hsame. apply Hok.
  - simpl. destruct (decide (choice = o)) as [->|Hne].
    + rewrite lookup_insert_eq. intros [= <-]. split; [done|].
      destruct (rows d !! o) as [c0|] eqn:Hc0; simpl; [|lia].
      destruct (Hok o c0 Hc0). lia.
    + rewrite lookup_insert_ne by done. apply Hok.
Qed.

Lemma run_rows_ok (acts : list action) (w : world) :
  settled (conn w) →
  rows_ok (stored (conn w)) → rows_ok (stored (conn (run acts w))).
Proof.
  revert w. induction acts as [|a acts IH]; intros w Hidle Hok; [done|].
  simpl. apply IH; [now apply step_idle|].
  exact (grows_rows_ok _ _ (step_grows a w Hidle) Hok).
Qed.

(** C10. From an empty table and a connection with no open transaction,
    with the worker the only writer of the table, after any sequence of
    actions of the system every row is for "cats" or "dogs" and has a
    count of at least 1. *)
Theorem rows_are_options_counted (acts : list action) (w : world) :
  txn (conn w) = None →
  stored (conn w) = Some ∅ →
  ∀ o c, rows (stored (conn (run acts w))) !! o = Some c →
         o ∈ ["cats"; "dogs"] ∧ (1 ≤ c)%Z.
Proof.
  intros Hidle Hempty. apply run_rows_ok; [now left|].
  intros o c. rewrite Hempty. simpl. now rewrite lookup_empty.
Qed.

Lemma rows_are_options_counted_witness :
  let e := {| redis_fault := None; pg_fault := None |} in
  let w := boot [encode "dogs"; encode "birds"; encode "cats"] (Some ∅) in
  let w' := run [LoopPass e; LoopPass e; LoopPass e] w in
  rows (stored (conn w')) !! "dogs" = Some 1%Z ∧
  rows (stored (conn w')) !! "birds" = None ∧
  "dogs" ∈ ["cats"; "dogs"] ∧ (1 ≤ 1)%Z.
Proof.
  intros e w w'. split_and!; [reflexivity | reflexivity | ..];
    apply (rows_are_options_counted [LoopPass e; LoopPass e; LoopPass e] w
             eq_refl eq_refl "dogs" 1%Z eq_refl).
Defined.

End Interleaving.

(** ** The list as a queue *)

Section Fifo.
Import App Worker System.

Lemma vote_votes (fault : option exn) (f : form) (w : world) :
  votes (snd (vote fault f w)) = accepted [Submit fault f] ++ votes w.
Proof.
  destruct (form_get "vote" f) as [v|] eqn:Hf.
  - destruct (py_in v ["cats"; "dogs"]) eqn:Hin.
    + apply py_in_true in Hin as Hv.
      rewrite (vote_valid fault f v w Hf Hv). simpl.
      destruct fault; [done|]. now rewrite Hf, Hin.
    + rewrite vote_invalid by now rewrite Hf, py_in_Some.
      simpl. destruct fault; [done|]. now rewrite Hf, Hin.
  - rewrite vote_invalid by now rewrite Hf.
    simpl. destruct fault; [done|]. now rewrite Hf.
Qed.

Lemma accepted_cons (op : qop) (ops : list qop) :
  accepted (op :: ops) = accepted [op] ++ accepted ops.
Proof.
  destruct op as [[e|] f|]; simpl; [done| |done].
  destruct (form_get "vote" f) as [v|]; [|done].
  now destruct (py_in v ["cats"; "dogs"]).
Qed.

Lemma accepted_single (op : qop) : length (accepted [op]) ≤ 1.
Proof.
  destruct op as [[e|] f|]; simpl; [lia| |lia].
  destruct (form_get "vote" f) as [v|]; simpl; [|lia].
  destruct (py_in v ["cats"; "dogs"]); simpl; lia.
Qed.

Lemma rev_at_most_one {A} (l : list A) : length l ≤ 1 → rev l = l.
Proof. destruct l as [|x [|y l]]; simpl; [done..|lia]. Qed.

Lemma exchange_history (ops : list qop) (w : world) :
  fst (exchange ops w) ++ rev (votes (snd (exchange ops w))) =
  rev (votes w) ++ accepted ops.
Proof.
  revert w. induction ops as [|op ops IH]; intros w.
  { simpl. now rewrite app_nil_r. }
  rewrite (accepted_cons op ops). destruct op as [fault f|].
  - simpl exchange. rewrite IH, vote_votes, rev_app_distr.
    rewrite (rev_at_most_one _ (accepted_single (Submit fault f))).
    now rewrite <- app_assoc.
  - simpl exchange. unfold Redis.brpop.
    destruct (Redis.pop_tail (votes w)) as [[q v]|] eqn:Hpop.
    + apply pop_tail_Some in Hpop. specialize (IH (set_votes q w)).
      destruct (exchange ops (set_votes q w)) as [vals w''].
      simpl in *. rewrite IH, Hpop, rev_app_distr. reflexivity.
    + rewrite IH. reflexivity.
Qed.

(** The list alone, with the pop called directly: along any interleaving
    of submissions and pops, the values popped so far, followed by what is
    still on the list from tail to head, are what was on the list at the
    start (tail first) followed by the accepted votes in the order they
    were submitted. *)
Lemma exchange_is_fifo (ops : list qop) (w : world) :
  (∀ v q, v ∈ ["cats"; "dogs"] →
     votes (snd (vote None [("vote", v)] (set_votes q w))) = encode v :: q) ∧
  (∀ q entry,
     Redis.brpop None (set_votes (q ++ [entry]) w) =
       (Return (encode "votes", entry), set_votes q w)) ∧
  fst (exchange ops w) ++ rev (votes (snd (exchange ops w))) =
    rev (votes w) ++ accepted ops ∧
  fst (exchange ops w) `prefix_of` rev (votes w) ++ accepted ops.
Proof.
  split_and!.
  - intros v q Hv.
    rewrite (vote_valid None [("vote", v)] v (set_votes q w) eq_refl Hv).
    reflexivity.
  - intros q entry. unfold Redis.brpop. simpl. now rewrite pop_tail_snoc.
  - apply exchange_history.
  - rewrite <- exchange_history. now apply prefix_app_r.
Qed.

End Fifo.

(** ** The example of the specification, end to end *)

Section EndToEnd.
Import App Worker System.

(** Four posts (cats, cats, dogs, elephants) into an empty list, then the
    worker starts on a database without the table and makes four passes:
    the tally is cats 2, dogs 1, and nothing else. *)
Example four_posts_then_worker :
  let e := {| redis_fault := None; pg_fault := None |} in
  let posted :=
    run [PostVote None [("vote", "cats")]; PostVote None [("vote", "cats")];
         PostVote None [("vote", "dogs")]; PostVote None [("vote", "elephants")]]
        (boot [] None) in
  let w := main None [e; e; e; e] posted in
  votes posted = [encode "dogs"; encode "cats"; encode "cats"] ∧
  votes w = [] ∧
  stored (conn w) = Some (<["dogs" := 1%Z]> {[ "cats" := 2%Z ]}) ∧
  stdout w = ["Worker started; waiting for votes...";
              "counted: cats"; "counted: cats"; "counted: dogs"] ∧
  slept w = 0.
Proof. vm_compute. now split_and!. Qed.

End EndToEnd.

(** ** What a pass does when something goes wrong *)

Section PassErrors.
Import Worker.

Lemma same_tail (q q' : list bytes) (entry entry' : bytes) :
  q ++ [entry] = q' ++ [entry'] → q = q' ∧ entry = entry'.
Proof. apply app_inj_tail. Qed.

(** X1. A pass of the loop never raises: whatever is injected and whatever
    the list holds, it returns, or it waits in the pop. It waits exactly
    when Redis is healthy and the list is empty, and then it has changed
    nothing. *)
Theorem loop_body_never_raises (e : env) (w : world) :
  (∀ ex, fst (loop_body e w) ≠ Raise ex) ∧
  (fst (loop_body e w) = Wait ↔ redis_fault e = None ∧ votes w = []) ∧
  (fst (loop_body e w) = Wait → snd (loop_body e w) = w) ∧
  (fst (loop_body e w) ≠ Wait → fst (loop_body e w) = Return tt).
Proof.
  destruct (loop_body_spec e w) as
    [Hr Hq | ex Hr | q entry ex Hr Hq Hd | q entry choice Hr Hq Hd Hin
     | q entry choice ex Hr Hq Hd Hin Hp
     | q entry choice Hr Hq Hd Hin Hp Hab
     | q entry choice ex Hr Hq Hd Hin Hp Hok Hsql
     | q entry choice db Hr Hq Hd Hin Hp Hok Hsql];
    cbn [fst snd]; (split_and!; [done| |done|done]);
    try (split; [done|]; intros [Hr' Hq']);
    try congruence;
    try (rewrite Hq in Hq'; now destruct q).
Qed.

(** X2. A pass whose pop fails takes nothing off the list and leaves the
    connection alone: it prints one line with the text of the error and
    sleeps 1 second. *)
Theorem pop_failure_loses_nothing (e : env) (ex : exn) (w : world) :
  redis_fault e = Some ex →
  fst (loop_body e w) = Return tt ∧
  votes (snd (loop_body e w)) = votes w ∧
  conn (snd (loop_body e w)) = conn w ∧
  stdout (snd (loop_body e w)) =
    stdout w ++ ["Error processing vote: " +:+ str ex] ∧
  slept (snd (loop_body e w)) = slept w + 1.
Proof.
  intros Hr.
  destruct (loop_body_spec e w) as [ | ex' Hr' | | | | | | ]; try congruence.
  assert (ex' = ex) as -> by congruence. now split_and!.
Qed.

Lemma pop_failure_loses_nothing_witness :
  let w := boot [encode "cats"] (Some ∅) in
  let e := {| redis_fault := Some (Exn "ConnectionError" "Connection reset");
              pg_fault := None |} in
  snd (loop_body e w) =
    {| votes := [encode "cats"]; conn := connect (Some ∅);
       stdout := ["Error processing vote: Connection reset"]; slept := 1 |}.
Proof.
  intros w e.
  destruct (pop_failure_loses_nothing e
              (Exn "ConnectionError" "Connection reset") w eq_refl)
    as (_ & Hv & Hc & Ho & Hs).
  destruct (snd (loop_body e w)) as [v c o s]. simpl in *.
  now rewrite Hv, Hc, Ho, Hs.
Defined.

(** X3. A pass that pops an entry which is not well-formed UTF-8 takes it
    off the list for good, leaves the connection alone, prints one error
    line and sleeps 1 second. *)
Theorem undecodable_entry_dropped
    (e : env) (q : list bytes) (entry : bytes) (w : world) :
  redis_fault e = None →
  votes w = q ++ [entry] →
  utf8_valid entry = false →
  fst (loop_body e w) = Return tt ∧
  votes (snd (loop_body e w)) = q ∧
  conn (snd (loop_body e w)) = conn w ∧
  (∃ ex, stdout (snd (loop_body e w)) =
           stdout w ++ ["Error processing vote: " +:+ str ex]) ∧
  slept (snd (loop_body e w)) = slept w + 1.
Proof.
  intros Hr Hq Hbad.
  assert (Hd : ∀ c, decode entry ≠ Return c).
  { intros c. unfold decode. now rewrite Hbad. }
  destruct (loop_body_spec e w) as
    [Hr' Hq' | ex Hr' | q' entry' ex Hr' Hq' Hd'
     | q' entry' choice Hr' Hq' Hd' Hin
     | q' entry' choice ex Hr' Hq' Hd' Hin Hp
     | q' entry' choice Hr' Hq' Hd' Hin Hp Hab
     | q' entry' choice ex Hr' Hq' Hd' Hin Hp Hok Hsql
     | q' entry' choice db Hr' Hq' Hd' Hin Hp Hok Hsql];
    try congruence;
    try (rewrite Hq in Hq'; apply same_tail in Hq' as [<- <-]);
    try (now apply Hd in Hd').
  - rewrite Hq in Hq'. now destruct q.
  - split_and!; try done. now exists ex.
Qed.

Lemma undecodable_entry_dropped_witness :
  let w := boot [encode "cats"; [xff]] (Some ∅) in
  let e := {| redis_fault := None; pg_fault := None |} in
  votes (snd (loop_body e w)) = [encode "cats"] ∧
  slept (snd (loop_body e w)) = 1.
Proof.
  intros w e.
  destruct (undecodable_entry_dropped e [encode "cats"] [xff] w)
    as (_ & Hv & _ & _ & Hs); [reflexivity..|].
  now split.
Defined.



Lemma pass_only_pops (e : env) (w : world) :
  ∃ popped, votes w = votes (snd (loop_body e w)) ++ popped ∧
            length popped ≤ 1 ∧
            (fst (loop_body e w) = Wait → popped = []).
Proof.
  destruct (loop_body_spec e w) as
    [Hr Hq | ex Hr | q entry ex Hr Hq Hd | q entry choice Hr Hq Hd Hin
     | q entry choice ex Hr Hq Hd Hin Hp
     | q entry choice Hr Hq Hd Hin Hp Hab
     | q entry choice ex Hr Hq Hd Hin Hp Hok Hsql
     | q entry choice db Hr Hq Hd Hin Hp Hok Hsql]; cbn [fst snd];
    try (exists []; rewrite app_nil_r; split_and!; (done || (simpl; lia)));
    exists [entry]; split_and!; (done || (simpl; lia)).
Qed.

Lemma pass_prints_at_most_one (e : env) (w : world) :
  ∃ lines, stdout (snd (loop_body e w)) = stdout w ++ lines ∧
           length lines ≤ 1.
Proof.
  destruct (loop_body_spec e w); cbn [fst snd];
    try (exists []; rewrite app_nil_r; split; (done || (simpl; lia)));
    eexists [_]; split; (done || (simpl; lia)).
Qed.

(** X5. The worker only ever takes entries off the tail of the list and
    only ever adds lines to its output: after any number of passes, the
    list is what it was with at most one entry per pass removed at the
    tail, and the output is what it was with at most one line per pass
    appended. *)
Theorem worker_only_pops (envs : list env) (w : world) :
  (∃ popped, votes w = votes (main_loop envs w) ++ popped ∧
             length popped ≤ length envs) ∧
  (∃ lines, stdout (main_loop envs w) = stdout w ++ lines ∧
            length lines ≤ length envs).
Proof.
  revert w. induction envs as [|e envs IH]; intros w.
  { split; exists []; rewrite app_nil_r; now split. }
  rewrite main_loop_cons.
  destruct (pass_only_pops e w) as (p1 & Hp1 & Hl1 & _).
  destruct (pass_prints_at_most_one e w) as (o1 & Ho1 & Hn1).
  destruct (fst (loop_body e w)).
  - destruct (IH (snd (loop_body e w))) as [(p2 & Hp2 & Hl2) (o2 & Ho2 & Hn2)].
    split.
    + exists (p2 ++ p1). rewrite Hp1 at 1. rewrite Hp2 at 1.
      rewrite <- app_assoc, length_app. split; [done|simpl; lia].
    + exists (o1 ++ o2). rewrite Ho2, Ho1, <- app_assoc, length_app.
      split; [done|simpl; lia].
  - split; [exists p1|exists o1]; split; simpl; try done; lia.
  - split; [exists p1|exists o1]; split; simpl; try done; lia.
Qed.

End PassErrors.

(** ** Starting the worker *)

Section Start.
Import Worker Startup System.

Lemma get_conn_failed (errs : list exn) (later : list (option exn)) (w : world) :
  get_conn (map Some errs ++ later) w = get_conn later (waiting errs w).
Proof.
  revert w. induction errs as [|e errs IH]; intros w.
  { simpl. f_equal. destruct w as [v c o s]. unfold waiting. simpl.
    f_equal; [now rewrite app_nil_r | lia]. }
  simpl map. simpl app. cbn [get_conn].
  unfold try_except, pg_connect, raise. simpl.
  unfold mbind, M_bind, bind, print, sleep. simpl.
  rewrite IH. f_equal. unfold waiting, asleep, printed. simpl.
  f_equal; [now rewrite <- app_assoc | lia].
Qed.

Lemma get_conn_succeeds
    (errs : list exn) (later : list (option exn)) (w : world) :
  get_conn (map Some errs ++ None :: later) w =
    (Return (connect (stored (conn w))), waiting errs w).
Proof. now rewrite get_conn_failed. Qed.

(** X6. [get_conn] returns at the first attempt that succeeds, however
    many failed before it: it hands over a fresh connection to the rows
    the server stores, having printed one "Waiting for database..." line
    per failed attempt, in order, and slept 2 seconds after each; the list
    and the stored rows are untouched. *)
Theorem get_conn_returns_at_first_success
    (errs : list exn) (later : list (option exn)) (w : world) :
  get_conn (map Some errs ++ None :: later) w =
    (Return (connect (stored (conn w))), waiting errs w) ∧
  stdout (waiting errs w) =
    stdout w ++ map (λ e, "Waiting for database... " +:+ str e) errs ∧
  slept (waiting errs w) = slept w + 2 * length errs ∧
  votes (waiting errs w) = votes w ∧
  conn (waiting errs w) = conn w.
Proof. rewrite get_conn_succeeds. now split_and!. Qed.

(** X7. [get_conn] never raises and never gives up: for every sequence of
    attempts it either returns a connection or, exactly when every attempt
    failed, is still retrying, having slept 2 seconds per attempt. It
    never touches the list or the stored rows. *)
Theorem get_conn_never_raises (attempts : list (option exn)) (w : world) :
  (∀ e, fst (get_conn attempts w) ≠ Raise e) ∧
  (fst (get_conn attempts w) = Wait ↔ Forall is_Some attempts) ∧
  (fst (get_conn attempts w) = Wait →
   slept (snd (get_conn attempts w)) = slept w + 2 * length attempts) ∧
  votes (snd (get_conn attempts w)) = votes w ∧
  conn (snd (get_conn attempts w)) = conn w.
Proof.
  revert w. induction attempts as [|[e|] later IH]; intros w.
  - simpl. split_and!; try done; lia.
  - change (Some e :: later) with (map Some [e] ++ later).
    rewrite get_conn_failed.
    destruct (IH (waiting [e] w)) as (Hr & Hw & Hs & Hv & Hc).
    split_and!; try done.
    + rewrite Hw. split; [now constructor|].
      intros H. now apply Forall_cons in H as [_ H].
    + intros Hwait. rewrite (Hs Hwait). simpl. lia.
  - simpl. split_and!; try done.
    split; [done|]. intros H. apply Forall_cons in H as [[x Hx] _]. done.
Qed.

Lemma ensure_table_fresh (w : world) :
  txn (conn w) = None →
  ensure_table None w =
    (Return tt,
     set_conn {| stored := Some (rows (stored (conn w))); txn := None;
                 sent := sent (conn w) ++ [CREATE_TABLE_IF_NOT_EXISTS_votes] |}
              w).
Proof.
  intros Hidle. unfold ensure_table, execute, commit, mbind, M_bind, bind.
  unfold view. rewrite Hidle. simpl.
  now destruct (stored (conn w)).
Qed.

(** X8. On a connection with no open transaction, [ensure_table] sends
    the one CREATE TABLE IF NOT EXISTS statement and commits: a missing
    table is created empty, an existing one keeps every row, and nothing
    else changes. Calling it again changes no stored row. *)
Theorem ensure_table_creates_once (w : world) :
  txn (conn w) = None →
  let w1 := snd (ensure_table None w) in
  fst (ensure_table None w) = Return tt ∧
  (stored (conn w) = None → stored (conn w1) = Some ∅) ∧
  (∀ t, stored (conn w) = Some t → stored (conn w1) = Some t) ∧
  txn (conn w1) = None ∧
  sent (conn w1) = sent (conn w) ++ [CREATE_TABLE_IF_NOT_EXISTS_votes] ∧
  votes w1 = votes w ∧ stdout w1 = stdout w ∧ slept w1 = slept w ∧
  stored (conn (snd (ensure_table None w1))) = stored (conn w1).
Proof.
  intros Hidle w1. unfold w1. rewrite (ensure_table_fresh w Hidle).
  cbn [fst snd]. rewrite ensure_table_fresh by done.
  split_and!; try done.
  - now intros ->.
  - now intros t ->.
Qed.

Lemma ensure_table_creates_once_witness :
  stored (conn (snd (ensure_table None (boot [] None)))) = Some ∅ ∧
  stored (conn (snd (ensure_table None
                       (boot [] (Some {[ "cats" := 5%Z ]}))))) =
    Some {[ "cats" := 5%Z ]}.
Proof.
  split.
  - apply (ensure_table_creates_once (boot [] None) eq_refl); reflexivity.
  - apply (ensure_table_creates_once (boot [] (Some {[ "cats" := 5%Z ]}))
             eq_refl); reflexivity.
Defined.

Lemma step_keeps_table (a : action) (w : world) :
  settled (conn w) →
  is_Some (stored (conn w)) → is_Some (stored (conn (step a w))).
Proof.
  intros Hidle Hsome. destruct a as [fault f|fault|entry|fault|e]; simpl.
  - now rewrite (proj1 (vote_frame fault f w)).
  - now destruct fault.
  - done.
  - unfold ensure_table, execute, commit, mbind, M_bind, bind. simpl.
    destruct fault as [ex|]; [done|].
    unfold view. destruct Hidle as [-> | ->]; simpl; [|done].
    destruct (stored (conn w)); simpl; eauto.
  - destruct (loop_body_spec e w) as
      [ | | | | | | | q entry choice db Hr Hq Hd Hin Hp Hok Hsql]; simpl; try done.
    rewrite (view_settled _ Hidle) in Hsql.
    apply run_sql_upsert_inr in Hsql as (t & Ht & -> & _). eauto.
Qed.

Lemma run_keeps_table (acts : list action) (w : world) :
  settled (conn w) →
  is_Some (stored (conn w)) → is_Some (stored (conn (run acts w))).
Proof.
  revert w. induction acts as [|a acts IH]; intros w Hidle Hsome; [done|].
  simpl. apply IH; [now apply step_idle | now apply step_keeps_table].
Qed.

(** X9. The table is never dropped: from a connection with no transaction
    open or aborted, once relation votes exists it exists after every
    sequence of actions of the system, whatever fails on the way. *)
Theorem table_persists (acts : list action) (w : world) :
  txn (conn w) = None →
  is_Some (stored (conn w)) →
  is_Some (stored (conn (run acts w))).
Proof. intros Hidle. apply run_keeps_table. now left. Qed.

Lemma table_persists_witness :
  let e := {| redis_fault := None; pg_fault := None |} in
  is_Some (stored (conn (run [ClientPush (encode "cats"); LoopPass e;
                              EnsureTable None; LoopPass e]
                             (boot [encode "dogs"] (Some ∅))))).
Proof.
  intros e.
  apply (table_persists _ (boot [encode "dogs"] (Some ∅)) eq_refl).
  simpl. eauto.
Defined.

End Start.

(** ** The worker from a cold start *)

Section ColdStart.
Import Worker Startup System.

Lemma attempts_split (attempts : list (option exn)) :
  Forall is_Some attempts ∨
  ∃ errs later, attempts = map Some errs ++ None :: later.
Proof.
  induction attempts as [|[e|] attempts IH].
  - now left.
  - destruct IH as [Hall|(errs & later & ->)].
    + left. constructor; eauto.
    + right. now exists (e :: errs), later.
  - right. now exists [], attempts.
Qed.

Lemma main_loop_keeps_table (envs : list env) (w : world) :
  settled (conn w) →
  is_Some (stored (conn w)) → is_Some (stored (conn (main_loop envs w))).
Proof.
  revert w. induction envs as [|e envs IH]; intros w Hidle Hsome; [done|].
  rewrite main_loop_cons.
  pose proof (step_keeps_table (LoopPass e) w Hidle Hsome) as Hstep.
  pose proof (step_idle (LoopPass e) w Hidle) as Hidle'.
  simpl in Hstep, Hidle'.
  destruct (fst (loop_body e w)); [now apply IH|done..].
Qed.

(** X10. A worker started while the database refuses connections does not
    crash: after the failed attempts it connects, makes sure the table
    exists, and drains the votes already on the list. With as many passes
    as entries, no further fault, well-formed entries and room below the
    INTEGER maximum, the list ends empty, the table exists, each option's
    row is its old row upserted once per vote for it, and the only time
    slept is the 2 seconds per failed attempt. *)
Theorem start_counts_queued_votes
    (errs : list exn) (envs : list env) (w : world) :
  Forall (λ e, redis_fault e = None ∧ pg_fault e = None) envs →
  length envs = length (votes w) →
  Forall (λ entry, utf8_valid entry = true) (votes w) →
  (∀ o, o ∈ ["cats"; "dogs"] →
        (tally (stored (conn w)) o + Z.of_nat (votes_for o (votes w))
         ≤ INT4_MAX)%Z) →
  let w' := start (map Some errs ++ [None]) None envs w in
  votes w' = [] ∧
  is_Some (stored (conn w')) ∧
  (∀ o, o ∈ ["cats"; "dogs"] →
        rows (stored (conn w')) !! o =
        row_after (votes_for o (votes w)) (rows (stored (conn w)) !! o)) ∧
  slept w' = slept w + 2 * length errs.
Proof.
  intros Henvs Hlen Hutf Hroom w'. unfold w', start.
  rewrite (get_conn_succeeds errs [] w).
  unfold main, mbind, M_bind, bind.
  rewrite ensure_table_fresh by reflexivity.
  unfold print. cbn [fst snd].
  match goal with |- context [main_loop envs ?x] => set (w2 := x) end.
  assert (Hidle2 : txn (conn w2) = None) by reflexivity.
  assert (Hst2 : stored (conn w2) = Some (rows (stored (conn w))))
    by reflexivity.
  assert (Hv2 : votes w2 = votes w) by reflexivity.
  assert (Hs2 : slept w2 = slept w + 2 * length errs) by reflexivity.
  assert (Hclean : slept (main_loop envs w2) = slept w2).
  { apply (clean_run_never_fails envs w2 (rows (stored (conn w))));
      try done. }
  assert (Hset2 : settled (conn w2)) by now left.
  split_and!.
  - now apply (main_loop_drains "cats" envs w2); [left|..]; rewrite ?Hv2.
  - apply main_loop_keeps_table; [done|]. rewrite Hst2. eauto.
  - intros o Ho.
    destruct (main_loop_drains o envs w2 Ho Hset2) as [_ Hrow];
      [now rewrite Hv2 | done |].
    now rewrite Hrow, Hv2, Hst2.
  - now rewrite Hclean.
Qed.

Lemma start_counts_queued_votes_witness :
  let e := {| redis_fault := None; pg_fault := None |} in
  let w := boot [encode "dogs"; encode "cats"; encode "cats"] None in
  let w' := start [Some (Exn "OperationalError" "Connection refused");
                   Some (Exn "OperationalError" "the database system is starting up");
                   None] None [e; e; e] w in
  votes w' = [] ∧
  rows (stored (conn w')) !! "cats" = Some 2%Z ∧
  rows (stored (conn w')) !! "dogs" = Some 1%Z ∧
  slept w' = 4.
Proof.
  intros e w w'.
  destruct (start_counts_queued_votes
              [Exn "OperationalError" "Connection refused";
               Exn "OperationalError" "the database system is starting up"]
              [e; e; e] w) as (Hv & _ & Hrows & Hs).
  - repeat constructor.
  - reflexivity.
  - repeat constructor.
  - intros o Ho. repeat (apply elem_of_cons in Ho as [->|Ho]);
      [vm_compute; discriminate..|now apply elem_of_nil in Ho].
  - split_and!; [exact Hv | | | exact Hs].
    + apply (Hrows "cats"). left.
    + apply (Hrows "dogs"). right. left.
Defined.

Lemma all_failed (attempts : list (option exn)) :
  Forall is_Some attempts → ∃ errs, attempts = map Some errs.
Proof.
  induction 1 as [|a attempts [e ->] _ [errs ->]]; [now exists []|].
  now exists (e :: errs).
Qed.

Lemma counted_lines_app (o : string) (out out' : list string) :
  counted_lines o (out ++ out') = counted_lines o out + counted_lines o out'.
Proof. unfold counted_lines. now rewrite List.filter_app, length_app. Qed.

Lemma counted_lines_waiting (o : string) (errs : list exn) :
  counted_lines o (map (λ e, "Waiting for database... " +:+ str e) errs) = 0.
Proof.
  induction errs as [|e errs IH]; [done|].
  change (counted_lines o
            (["Waiting for database... " +:+ str e]
             ++ map (λ e, "Waiting for database... " +:+ str e) errs) = 0).
  rewrite counted_lines_app, IH. reflexivity.
Qed.

(** X11. A worker that never gets its connection, or whose [ensure_table]
    raises, pops nothing and counts nothing: the list and the stored rows
    are what they were, and no "counted: ..." line is printed. *)
Theorem start_without_table_pops_nothing
    (attempts : list (option exn)) (fault : option exn)
    (envs : list env) (w : world) :
  Forall is_Some attempts ∨ is_Some fault →
  votes (start attempts fault envs w) = votes w ∧
  stored (conn (start attempts fault envs w)) = stored (conn w) ∧
  (∀ o, counted_lines o (stdout (start attempts fault envs w)) =
        counted_lines o (stdout w)).
Proof.
  intros Hcause. unfold start.
  destruct (attempts_split attempts) as [Hall|(errs & later & ->)].
  - destruct (all_failed attempts Hall) as [errs ->].
    rewrite <- (app_nil_r (map Some errs)), get_conn_failed. simpl.
    split_and!; try done. intros o.
    now rewrite counted_lines_app, counted_lines_waiting, Nat.add_0_r.
  - rewrite (get_conn_succeeds errs later w).
    destruct Hcause as [Hall|[ex ->]].
    + apply Forall_app in Hall as [_ Hall].
      apply Forall_cons in Hall as [[x Hx] _]. discriminate Hx.
    + unfold main, ensure_table, execute, mbind, M_bind, bind. simpl.
      split_and!; try done. intros o.
      now rewrite counted_lines_app, counted_lines_waiting, Nat.add_0_r.
Qed.

Lemma start_without_table_pops_nothing_witness :
  let e := {| redis_fault := None; pg_fault := None |} in
  let w := boot [encode "cats"] (Some {[ "cats" := 1%Z ]}) in
  votes (start [None] (Some (Exn "InsufficientPrivilege" "permission denied"))
               [e; e] w) = [encode "cats"] ∧
  votes (start [Some (Exn "OperationalError" "Connection refused")] None
               [e; e] w) = [encode "cats"].
Proof.
  intros e w. split.
  - apply (start_without_table_pops_nothing [None] _ [e; e] w).
    right. eauto.
  - apply (start_without_table_pops_nothing
             [Some (Exn "OperationalError" "Connection refused")] None [e; e] w).
    left. repeat constructor. eauto.
Defined.

End ColdStart.

(** ** Accounting for every vote *)

Section Accounting.
Import App Worker System.

Lemma counted_lines_snoc (o : string) (out : list string) (line : string) :
  counted_lines o (out ++ [line]) =
  counted_lines o out + (if bool_decide (line = "counted: " +:+ o) then 1 else 0).
Proof.
  rewrite counted_lines_app. unfold counted_lines. simpl.
  now destruct (bool_decide (line = "counted: " +:+ o)).
Qed.

Lemma counted_lines_error (o : string) (out : list string) (ex : exn) :
  counted_lines o (out ++ ["Error processing vote: " +:+ str ex]) =
  counted_lines o out.
Proof.
  rewrite counted_lines_snoc, bool_decide_eq_false_2; [lia|]. discriminate.
Qed.

Lemma counted_lines_reported (o : string) (ex : exn) (w : world) :
  counted_lines o (stdout (reported ex w)) = counted_lines o (stdout w).
Proof. apply counted_lines_error. Qed.

Lemma counted_lines_counted (o choice : string) (out : list string) :
  counted_lines o (out ++ ["counted: " +:+ choice]) =
  counted_lines o out + (if bool_decide (choice = o) then 1 else 0).
Proof.
  rewrite counted_lines_snoc. f_equal.
  rewrite (bool_decide_ext ("counted: " +:+ choice = "counted: " +:+ o)
             (choice = o)); [done|].
  split; [|now intros ->]. intros H. injection H as H. exact H.
Qed.

Lemma tally_upsert (d : database) (choice o : string) :
  tally (Some (<[choice := upserted (rows d !! choice)]> (rows d))) o =
  (tally d o + (if bool_decide (choice = o) then 1 else 0))%Z.
Proof.
  unfold tally. simpl. destruct (decide (choice = o)) as [->|Hne].
  - rewrite bool_decide_eq_true_2 by done. rewrite lookup_insert_eq.
    destruct (rows d !! o); simpl; lia.
  - rewrite bool_decide_eq_false_2 by done.
    rewrite lookup_insert_ne by done. lia.
Qed.

Lemma ensure_table_frame (fault : option exn) (w : world) :
  votes (snd (ensure_table fault w)) = votes w ∧
  stdout (snd (ensure_table fault w)) = stdout w ∧
  slept (snd (ensure_table fault w)) = slept w.
Proof.
  unfold ensure_table, execute, commit, mbind, M_bind, bind. simpl.
  destruct fault; [done|].
  destruct (txn (conn w)) as [[db|]|]; simpl; try done;
    now destruct (view (conn w)).
Qed.

Lemma pass_tally_log (e : env) (w : world) (o : string) :
  settled (conn w) →
  (tally (stored (conn (snd (loop_body e w)))) o - tally (stored (conn w)) o)%Z =
  (Z.of_nat (counted_lines o (stdout (snd (loop_body e w))))
   - Z.of_nat (counted_lines o (stdout w)))%Z.
Proof.
  intros Hidle.
  destruct (loop_body_spec e w) as
    [ | | | | | | | q entry choice db Hr Hq Hd Hin Hp Hok Hsql]; cbn [fst snd];
    try (rewrite counted_lines_reported; simpl; lia); try (simpl; lia).
  rewrite (view_settled _ Hidle) in Hsql.
  apply run_sql_upsert_inr in Hsql as (t & Ht & -> & _).
  simpl. rewrite counted_lines_counted, Ht.
  change (Some (<[choice:=upserted (t !! choice)]> t))
    with (Some (<[choice:=upserted (rows (Some t) !! choice)]> (rows (Some t)))).
  rewrite tally_upsert. destruct (bool_decide (choice = o)); lia.
Qed.

Lemma step_tally_log (a : action) (w : world) (o : string) :
  settled (conn w) →
  (tally (stored (conn (step a w))) o - tally (stored (conn w)) o)%Z =
  (Z.of_nat (counted_lines o (stdout (step a w)))
   - Z.of_nat (counted_lines o (stdout w)))%Z.
Proof.
  intros Hidle. destruct a as [fault f|fault|entry|fault|e]; simpl.
  - destruct (vote_frame fault f w) as (-> & -> & _). lia.
  - destruct fault; simpl; lia.
  - lia.
  - destruct (ensure_table_frame fault w) as (_ & -> & _).
    unfold tally. rewrite (proj2 (ensure_table_idle fault w Hidle)). lia.
  - now apply pass_tally_log.
Qed.

Lemma run_tally_log (acts : list action) (w : world) (o : string) :
  settled (conn w) →
  (tally (stored (conn (run acts w))) o - tally (stored (conn w)) o)%Z =
  (Z.of_nat (counted_lines o (stdout (run acts w)))
   - Z.of_nat (counted_lines o (stdout w)))%Z.
Proof.
  revert w. induction acts as [|a acts IH]; intros w Hidle; [simpl; lia|].
  simpl. specialize (IH (step a w) (step_idle a w Hidle)).
  pose proof (step_tally_log a w o Hidle). lia.
Qed.

(** X12. The worker's output and the table agree: along every sequence of
    actions of the system, from a connection with no open transaction, the
    count of each option grows by exactly the number of "counted: option"
    lines printed meanwhile. From an empty table and an empty output, the
    count of an option is the number of its "counted" lines. *)
Theorem tally_matches_log (acts : list action) (w : world) (o : string) :
  txn (conn w) = None →
  (tally (stored (conn (run acts w))) o - tally (stored (conn w)) o)%Z =
  (Z.of_nat (counted_lines o (stdout (run acts w)))
   - Z.of_nat (counted_lines o (stdout w)))%Z.
Proof. intros Hidle. apply run_tally_log. now left. Qed.

Lemma tally_matches_log_witness :
  let e := {| redis_fault := None; pg_fault := None |} in
  let acts := [PostVote None [("vote", "cats")]; LoopPass e;
               ClientPush (encode "birds"); LoopPass e;
               PostVote None [("vote", "cats")]; LoopPass e] in
  let w := boot [] (Some ∅) in
  tally (stored (conn (run acts w))) "cats" = 2%Z ∧
  counted_lines "cats" (stdout (run acts w)) = 2.
Proof.
  intros e acts w.
  pose proof (tally_matches_log acts w "cats" eq_refl) as H.
  split; [|reflexivity].
  change (tally (stored (conn w)) "cats") with 0%Z in H.
  change (counted_lines "cats" (stdout w)) with 0 in H.
  change (counted_lines "cats" (stdout (run acts w))) with 2 in H.
  lia.
Defined.

End Accounting.

(** ** From the form to the table *)

Section Conservation.
Import App Worker System.

Lemma decode_option (v : string) :
  v ∈ ["cats"; "dogs"] → decode (encode v) = Return v.
Proof.
  intros Hv. repeat (apply elem_of_cons in Hv as [->|Hv]); [done..|].
  now apply elem_of_nil in Hv.
Qed.

Lemma votes_for_cons (o : string) (entry : bytes) (q : list bytes) :
  votes_for o (entry :: q) =
  (if is_vote_for o entry then 1 else 0) + votes_for o q.
Proof. unfold votes_for. simpl. now destruct (is_vote_for o entry). Qed.

Lemma step_slept (a : action) (w : world) : slept w ≤ slept (step a w).
Proof.
  destruct a as [fault f|fault|entry|fault|e]; simpl.
  - destruct (vote_frame fault f w) as (_ & _ & ->). lia.
  - destruct fault; simpl; lia.
  - lia.
  - destruct (ensure_table_frame fault w) as (_ & _ & ->). lia.
  - apply pass_slept.
Qed.

Lemma run_slept (acts : list action) (w : world) :
  slept w ≤ slept (run acts w).
Proof.
  revert w. induction acts as [|a acts IH]; intros w; [done|].
  simpl. pose proof (step_slept a w). specialize (IH (step a w)). lia.
Qed.

Lemma pushed_for_cons (o : string) (a : action) (acts : list action) :
  pushed_for o (a :: acts) = pushed_for o [a] + pushed_for o acts.
Proof. destruct a as [[ex|] f|fault|entry|fault|e]; simpl; lia. Qed.

Lemma vote_pushes_for (o : string) (fault : option exn) (f : form) (w : world) :
  o ∈ ["cats"; "dogs"] →
  votes_for o (votes (snd (vote fault f w))) =
  pushed_for o [PostVote fault f] + votes_for o (votes w).
Proof.
  intros Ho. rewrite vote_votes. destruct fault as [ex|]; [done|]. simpl.
  destruct (form_get "vote" f) as [v|] eqn:Hf.
  - destruct (py_in v ["cats"; "dogs"]) eqn:Hin.
    + apply py_in_true in Hin. simpl. rewrite votes_for_cons.
      unfold is_vote_for. rewrite (decode_option v Hin).
      rewrite (bool_decide_ext (Some v = Some o) (v = o)); [lia|].
      split; [now intros [= ->]|now intros ->].
    + apply py_in_false in Hin. simpl.
      rewrite bool_decide_eq_false_2; [done|]. intros [= ->]. contradiction.
  - reflexivity.
Qed.

Lemma step_conserves (a : action) (w : world) (o : string) :
  o ∈ ["cats"; "dogs"] →
  settled (conn w) →
  slept (step a w) = slept w →
  (tally (stored (conn (step a w))) o
   + Z.of_nat (votes_for o (votes (step a w))))%Z =
  (tally (stored (conn w)) o + Z.of_nat (votes_for o (votes w))
   + Z.of_nat (pushed_for o [a]))%Z.
Proof.
  intros Ho Hidle Hslept. destruct a as [fault f|fault|entry|fault|e].
  - simpl step. rewrite (vote_pushes_for o fault f w Ho).
    rewrite (proj1 (vote_frame fault f w)). lia.
  - simpl. destruct fault; simpl; lia.
  - simpl step. simpl votes. rewrite votes_for_cons. simpl. lia.
  - simpl step. simpl pushed_for.
    rewrite (proj1 (ensure_table_frame fault w)).
    unfold tally. rewrite (proj2 (ensure_table_idle fault w Hidle)). lia.
  - simpl step in *. simpl pushed_for.
    destruct (loop_body_spec e w) as
      [Hr Hq | ex Hr | q entry ex Hr Hq Hd | q entry choice Hr Hq Hd Hin
       | q entry choice ex Hr Hq Hd Hin Hp
       | q entry choice Hr Hq Hd Hin Hp Hab
       | q entry choice ex Hr Hq Hd Hin Hp Hok Hsql
       | q entry choice db Hr Hq Hd Hin Hp Hok Hsql];
      cbn [fst snd] in *; try (simpl in Hslept; lia).
    + simpl. rewrite Hq, votes_for_snoc, (is_vote_for_decoded _ _ _ Hd).
      rewrite bool_decide_eq_false_2 by (intros ->; contradiction). lia.
    + rewrite (view_settled _ Hidle) in Hsql.
      apply run_sql_upsert_inr in Hsql as (t & Ht & -> & _).
      simpl. rewrite Hq, votes_for_snoc, (is_vote_for_decoded _ _ _ Hd), Ht.
      change (Some (<[choice:=upserted (t !! choice)]> t))
        with (Some (<[choice:=upserted (rows (Some t) !! choice)]>
                      (rows (Some t)))).
      rewrite tally_upsert. destruct (bool_decide (choice = o)); lia.
Qed.

Lemma run_conserves (acts : list action) (w : world) (o : string) :
  o ∈ ["cats"; "dogs"] →
  settled (conn w) →
  slept (run acts w) = slept w →
  (tally (stored (conn (run acts w))) o
   + Z.of_nat (votes_for o (votes (run acts w))))%Z =
  (tally (stored (conn w)) o + Z.of_nat (votes_for o (votes w))
   + Z.of_nat (pushed_for o acts))%Z.
Proof.
  intros Ho. revert w.
  induction acts as [|a acts IH]; intros w Hidle Hslept; [simpl; lia|].
  simpl in Hslept. rewrite pushed_for_cons. simpl run.
  pose proof (step_slept a w) as H1.
  pose proof (run_slept acts (step a w)) as H2.
  rewrite IH; [|now apply step_idle|lia].
  rewrite (step_conserves a w o Ho Hidle) by lia. lia.
Qed.

(** X13. No vote is lost or invented while nothing fails: along every
    sequence of actions of the system in which the worker never takes its
    [except] branch, for "cats" and for "dogs", the count in the table plus
    the votes still on the list is what it was at the start plus the votes
    put on the list meanwhile (by POST /vote or by other clients). *)
Theorem no_vote_lost_without_failure
    (acts : list action) (w : world) (o : string) :
  o ∈ ["cats"; "dogs"] →
  txn (conn w) = None →
  slept (run acts w) = slept w →
  (tally (stored (conn (run acts w))) o
   + Z.of_nat (votes_for o (votes (run acts w))))%Z =
  (tally (stored (conn w)) o + Z.of_nat (votes_for o (votes w))
   + Z.of_nat (pushed_for o acts))%Z.
Proof. intros Ho Hidle. apply run_conserves; [done|now left]. Qed.

Lemma no_vote_lost_without_failure_witness :
  let e := {| redis_fault := None; pg_fault := None |} in
  let acts := [PostVote None [("vote", "cats")]; PostVote None [("vote", "dogs")];
               LoopPass e; PostVote None [("vote", "cats")];
               PostVote None [("vote", "fish")]; LoopPass e] in
  let w := boot [] (Some ∅) in
  (tally (stored (conn (run acts w))) "cats"
   + Z.of_nat (votes_for "cats" (votes (run acts w))))%Z = 2%Z.
Proof.
  intros e acts w.
  rewrite (no_vote_lost_without_failure acts w "cats");
    [reflexivity | left | reflexivity | reflexivity].
Defined.

Lemma step_intake (a : action) (w : world) :
  of_intake a = true →
  conn (step a w) = conn w ∧ stdout (step a w) = stdout w ∧
  slept (step a w) = slept w ∧
  ∃ new, votes (step a w) = new ++ votes w ∧ length new ≤ 1 ∧
         Forall (λ b, b = encode "cats" ∨ b = encode "dogs") new.
Proof.
  destruct a as [fault f|fault|entry|fault|e]; try discriminate; intros _.
  - simpl. destruct (vote_frame fault f w) as (-> & -> & ->).
    split_and!; try done. rewrite vote_votes.
    exists (accepted [Submit fault f]). split; [done|].
    split; [apply accepted_single|].
    destruct fault as [ex|]; simpl; [constructor|].
    destruct (form_get "vote" f) as [v|]; [|constructor].
    destruct (py_in v ["cats"; "dogs"]) eqn:Hin; [|constructor].
    apply py_in_true in Hin. constructor; [|constructor].
    repeat (apply elem_of_cons in Hin as [->|Hin]); eauto.
    now apply elem_of_nil in Hin.
  - simpl. destruct fault; simpl; split_and!; try done;
      exists []; split_and!; try done; simpl; lia.
Qed.

(** X14. The intake only ever adds valid votes at the head of the list:
    after any sequence of POST /vote and GET /health requests, whatever
    their form fields and whatever faults are injected, the list is the
    old list with at most one entry per request put in front, each of them
    the bytes of "cats" or of "dogs"; the worker's connection, its output
    and its sleep time are untouched. *)
Theorem intake_only_adds_valid_votes (acts : list action) (w : world) :
  forallb of_intake acts = true →
  conn (run acts w) = conn w ∧ stdout (run acts w) = stdout w ∧
  slept (run acts w) = slept w ∧
  ∃ new, votes (run acts w) = new ++ votes w ∧
         length new ≤ length acts ∧
         Forall (λ b, b = encode "cats" ∨ b = encode "dogs") new.
Proof.
  revert w. induction acts as [|a acts IH]; intros w Hin.
  { split_and!; try done. exists []. now split_and!. }
  simpl in Hin. apply andb_true_iff in Hin as [Ha Hacts].
  destruct (step_intake a w Ha) as (Hc & Ho & Hs & n1 & Hv1 & Hl1 & Hf1).
  destruct (IH (step a w) Hacts) as (Hc' & Ho' & Hs' & n2 & Hv2 & Hl2 & Hf2).
  simpl run. split_and!; try congruence.
  exists (n2 ++ n1). rewrite Hv2, Hv1, <- app_assoc, length_app.
  split_and!; [done|simpl; lia|now apply Forall_app].
Qed.

Lemma intake_only_adds_valid_votes_witness :
  let acts := [PostVote None [("vote", "cats")]; GetHealth None;
               PostVote None [("vote", "'; DROP TABLE votes; --")];
               PostVote None [("vote", "dogs")]] in
  ∃ new, votes (run acts (boot [encode "cats"] None)) = new ++ [encode "cats"] ∧
         length new ≤ 4 ∧
         Forall (λ b, b = encode "cats" ∨ b = encode "dogs") new.
Proof.
  intros acts.
  apply (intake_only_adds_valid_votes acts (boot [encode "cats"] None)).
  reflexivity.
Defined.

End Conservation.

(** ** The list between the two processes *)

Section Handoff.
Import App Worker System.

Lemma step_keeps_votes_valid (a : action) (w : world) :
  of_system a = true →
  Forall (λ b, b = encode "cats" ∨ b = encode "dogs") (votes w) →
  Forall (λ b, b = encode "cats" ∨ b = encode "dogs") (votes (step a w)).
Proof.
  intros Ha Hvalid. destruct a as [fault f|fault|entry|fault|e];
    try discriminate.
  - destruct (step_intake (PostVote fault f) w eq_refl)
      as (_ & _ & _ & new & -> & _ & Hnew). now apply Forall_app.
  - destruct (step_intake (GetHealth fault) w eq_refl)
      as (_ & _ & _ & new & -> & _ & Hnew). now apply Forall_app.
  - simpl. now rewrite (proj1 (ensure_table_frame fault w)).
  - simpl. destruct (pass_only_pops e w) as (popped & Hpop & _).
    rewrite Hpop in Hvalid. now apply Forall_app in Hvalid as [Hvalid _].
Qed.

(** X15. As long as no other client pushes onto the list, the list holds
    nothing but votes: if every entry is the bytes of "cats" or of "dogs",
    that is still so after any sequence of requests to the intake and
    actions of the worker, and every entry decodes to an option of the
    closed set. *)
Theorem list_holds_only_votes (acts : list action) (w : world) :
  forallb of_system acts = true →
  Forall (λ b, b = encode "cats" ∨ b = encode "dogs") (votes w) →
  Forall (λ b, b = encode "cats" ∨ b = encode "dogs") (votes (run acts w)) ∧
  ∀ entry, entry ∈ votes (run acts w) →
           ∃ v, v ∈ ["cats"; "dogs"] ∧ decode entry = Return v.
Proof.
  intros Hsys Hvalid.
  assert (Hall : Forall (λ b, b = encode "cats" ∨ b = encode "dogs")
                        (votes (run acts w))).
  { revert w Hvalid. induction acts as [|a acts IH]; intros w Hvalid; [done|].
    simpl in Hsys. apply andb_true_iff in Hsys as [Ha Hacts].
    simpl. apply IH; [done|]. now apply step_keeps_votes_valid. }
  split; [exact Hall|]. intros entry Hentry.
  rewrite Forall_forall in Hall. destruct (Hall entry Hentry) as [->| ->].
  - exists "cats". split; [left|reflexivity].
  - exists "dogs". split; [right; left|reflexivity].
Qed.

Lemma list_holds_only_votes_witness :
  let e := {| redis_fault := None; pg_fault := None |} in
  let acts := [PostVote None [("vote", "cats")]; LoopPass e;
               PostVote None [("vote", "mice")]; EnsureTable None;
               PostVote None [("vote", "dogs")]] in
  Forall (λ b, b = encode "cats" ∨ b = encode "dogs")
         (votes (run acts (boot [encode "dogs"] None))).
Proof.
  intros e acts.
  apply (list_holds_only_votes acts (boot [encode "dogs"] None)).
  - reflexivity.
  - constructor; [now right|constructor].
Defined.

(** X16. One vote, from the form to the table: on an empty list, a valid
    POST /vote followed by one pass of the worker, with healthy stores, a
    connection with no transaction open or aborted, an existing table and a
    count below the INTEGER maximum, leaves the list
    empty again, the option's count one higher (1 if it had no row), every
    other row as it was, and one "counted: ..." line more. *)
Theorem vote_then_pass_counts
    (f : form) (v : string) (e : env) (t : gmap string Z) (w : world) :
  form_get "vote" f = Some v →
  v ∈ ["cats"; "dogs"] →
  votes w = [] →
  txn (conn w) = None →
  stored (conn w) = Some t →
  (∀ c, t !! v = Some c → (c < INT4_MAX)%Z) →
  redis_fault e = None →
  pg_fault e = None →
  let w' := snd (loop_body e (snd (vote None f w))) in
  votes w' = [] ∧
  stored (conn w') = Some (<[v := upserted (t !! v)]> t) ∧
  tally (stored (conn w')) v = (tally (stored (conn w)) v + 1)%Z ∧
  (∀ o, o ≠ v → rows (stored (conn w')) !! o = t !! o) ∧
  stdout w' = stdout w ++ ["counted: " +:+ v] ∧
  slept w' = slept w.
Proof.
  intros Hf Hv Hq Hidle Ht Hroom Hr Hp.
  rewrite (vote_valid None f v w Hf Hv). cbn [snd]. rewrite Hq.
  unfold loop_body, try_except, mbind, M_bind, bind, Redis.brpop, lift.
  rewrite Hr. cbn [votes set_votes].
  change (Redis.pop_tail [encode v]) with (Some ([] : list bytes, encode v)).
  cbn iota beta. rewrite (decode_option v Hv).
  apply py_in_true in Hv as Hin. rewrite Hin.
  unfold increment_vote, execute, commit, mbind, M_bind, bind.
  rewrite (options_nul_free v Hv), Hp. cbn [conn set_votes set_conn].
  rewrite Hidle. unfold view. rewrite Hidle, Ht.
  rewrite (run_sql_upsert v t Hroom). simpl.
  split_and!; try done.
  - change (Some (<[v:=upserted (t !! v)]> t))
      with (Some (<[v:=upserted (rows (Some t) !! v)]> (rows (Some t)))).
    rewrite tally_upsert, bool_decide_eq_true_2 by done. lia.
  - intros o Ho. now apply lookup_insert_ne.
Qed.

Lemma vote_then_pass_counts_witness :
  let e := {| redis_fault := None; pg_fault := None |} in
  let w := boot [] (Some {[ "dogs" := 9%Z ]}) in
  let w' := snd (loop_body e (snd (vote None [("vote", "dogs")] w))) in
  stored (conn w') = Some {[ "dogs" := 10%Z ]} ∧
  stdout w' = ["counted: dogs"].
Proof.
  intros e w w'.
  destruct (vote_then_pass_counts [("vote", "dogs")] "dogs" e
              {[ "dogs" := 9%Z ]} w) as (_ & Hst & _ & _ & Hout & _);
    try reflexivity.
  - right. left.
  - intros c Hc. vm_compute in Hc. injection Hc as <-. reflexivity.
  - split; [|exact Hout]. etransitivity; [exact Hst|reflexivity].
Defined.

End Handoff.

(** ** The password of the database *)

Section Password.
Import Config.

Lemma append_cons (a : Ascii.ascii) (s u : string) :
  String a s +:+ u = String a (s +:+ u).
Proof. reflexivity. Qed.

Lemma append_nil_r (s : string) : s +:+ "" = s.
Proof. induction s as [|a s IH]; [done|]. now rewrite append_cons, IH. Qed.

Lemma append_assoc (s t u : string) : (s +:+ t) +:+ u = s +:+ (t +:+ u).
Proof. induction s as [|a s IH]; [done|]. now rewrite !append_cons, IH. Qed.

Lemma length_append (s t : string) :
  String.length (s +:+ t) = String.length s + String.length t.
Proof.
  induction s as [|a s IH]; [done|]. rewrite append_cons. simpl. now rewrite IH.
Qed.

Lemma lstrip_unfold (s : string) :
  lstrip s = match ws_head s with
             | Some r => lstrip r
             | None => s
             end.
Proof.
  destruct s as [|a s1]; [done|]. cbn [lstrip ws_head].
  destruct (ws1 _); [done|]. destruct s1 as [|b s2]; [done|].
  destruct (ws2 _ _); [done|]. destruct s2 as [|c s3]; [done|].
  now destruct (ws3 _ _ _).
Qed.

Lemma ws_head_shorter (s r : string) :
  ws_head s = Some r → String.length r < String.length s.
Proof.
  destruct s as [|a s1]; [done|]. cbn [ws_head].
  destruct (ws1 _); [intros [= <-]; simpl; lia|].
  destruct s1 as [|b s2]; [done|].
  destruct (ws2 _ _); [intros [= <-]; simpl; lia|].
  destruct s2 as [|c s3]; [done|].
  destruct (ws3 _ _ _); [intros [= <-]; simpl; lia|done].
Qed.

Lemma ws_head_app (p r u : string) :
  ws_head p = Some r → ws_head (p +:+ u) = Some (r +:+ u).
Proof.
  destruct p as [|a s1]; [done|]. rewrite ?append_cons; cbn [ws_head].
  destruct (ws1 _); [now intros [= <-]|].
  destruct s1 as [|b s2]; [done|]. rewrite ?append_cons.
  destruct (ws2 _ _); [now intros [= <-]|].
  destruct s2 as [|c s3]; [done|]. rewrite ?append_cons.
  destruct (ws3 _ _ _); [now intros [= <-]|done].
Qed.

Lemma ws_head_prefix_None (p u : string) :
  ws_head (p +:+ u) = None → ws_head p = None.
Proof.
  destruct p as [|a s1]; [done|]. rewrite ?append_cons; cbn [ws_head].
  destruct (ws1 _); [done|].
  destruct s1 as [|b s2]; [done|]. rewrite ?append_cons.
  destruct (ws2 _ _); [done|].
  destruct s2 as [|c s3]; [done|]. rewrite ?append_cons.
  now destruct (ws3 _ _ _).
Qed.

(** The first byte of a whitespace character is no continuation byte,
    and every later byte of one is. *)
Lemma ws_bytes (a b c : N) :
  (ws1 a = true → (a < 128)%N) ∧
  (ws2 a b = true → (194 ≤ a)%N ∧ (128 ≤ b ≤ 191)%N) ∧
  (ws3 a b c = true → (194 ≤ a)%N ∧ (128 ≤ b ≤ 191)%N ∧ (128 ≤ c ≤ 191)%N).
Proof.
  unfold ws1, ws2, ws3, between.
  rewrite ?orb_true_iff, ?andb_true_iff, ?orb_true_iff, ?andb_true_iff,
          ?N.eqb_eq, ?N.leb_le.
  lia.
Qed.

(** The first byte of a text that starts with a whitespace character. *)
Lemma ws_head_first (a : Ascii.ascii) (s r : string) :
  ws_head (String a s) = Some r →
  (Ascii.N_of_ascii a < 128 ∨ 194 ≤ Ascii.N_of_ascii a)%N.
Proof.
  cbn [ws_head].
  destruct (ws1 _) eqn:H1; [intros _; left; now apply (ws_bytes _ 0 0)|].
  destruct s as [|b s2]; [done|].
  destruct (ws2 _ _) eqn:H2;
    [intros _; right; now apply (ws_bytes _ _ 0) in H2|].
  destruct s2 as [|c s3]; [done|].
  destruct (ws3 _ _ _) eqn:H3; [|done].
  intros _. right. now apply ws_bytes in H3.
Qed.

Lemma not_ws_after (x a b c : N) :
  (x < 128 ∨ 194 ≤ x)%N →
  ws2 a x = false ∧ ws3 a x c = false ∧ ws3 a b x = false.
Proof.
  intros Hx. split_and!; apply not_true_is_false; intros H.
  - apply (ws_bytes a x 0) in H. lia.
  - apply ws_bytes in H. lia.
  - apply ws_bytes in H. lia.
Qed.

Lemma append_nil_l (u : string) : "" +:+ u = u.
Proof. reflexivity. Qed.

Lemma ws_head_app_None (s u : string) :
  ws_head s = None → s ≠ "" → u = "" ∨ is_Some (ws_head u) →
  ws_head (s +:+ u) = None.
Proof.
  intros Hs Hne [->|[r Hu]]; [now rewrite append_nil_r|].
  destruct u as [|x u']; [done|]. apply ws_head_first in Hu.
  destruct s as [|a s1]; [done|]. revert Hs.
  rewrite append_cons. cbn [ws_head].
  destruct (ws1 _); [done|]. destruct s1 as [|b s2].
  { intros _. rewrite append_nil_l.
    rewrite (proj1 (not_ws_after _ (Ascii.N_of_ascii a) 0 0 Hu)).
    destruct u' as [|y u'']; [done|].
    now rewrite (proj1 (proj2 (not_ws_after _ (Ascii.N_of_ascii a) 0
                                 (Ascii.N_of_ascii y) Hu))). }
  rewrite append_cons. destruct (ws2 _ _); [done|]. destruct s2 as [|c s3].
  { intros _. rewrite append_nil_l.
    now rewrite (proj2 (proj2 (not_ws_after _ (Ascii.N_of_ascii a)
                                 (Ascii.N_of_ascii b) 0 Hu))). }
  rewrite append_cons. now destruct (ws3 _ _ _).
Qed.

Lemma all_ws_head (u : string) :
  lstrip u = "" → u = "" ∨ is_Some (ws_head u).
Proof.
  rewrite lstrip_unfold. destruct (ws_head u); eauto.
Qed.

Lemma lstrip_app_all_ws (p u : string) :
  lstrip p = "" → lstrip (p +:+ u) = lstrip u.
Proof.
  remember (String.length p) as n eqn:Hn. revert p Hn.
  induction n as [n IH] using lt_wf_ind. intros p -> Hp.
  rewrite lstrip_unfold in Hp. rewrite (lstrip_unfold (p +:+ u)).
  destruct (ws_head p) as [r|] eqn:Hh.
  - rewrite (ws_head_app p r u Hh).
    apply (IH (String.length r)); [now apply ws_head_shorter|done|done].
  - subst p. change ("" +:+ u) with u. now rewrite <- lstrip_unfold.
Qed.

Lemma lstrip_app (s u : string) :
  lstrip u = "" →
  lstrip (s +:+ u) = if decide (lstrip s = "") then "" else lstrip s +:+ u.
Proof.
  intros Hu. remember (String.length s) as n eqn:Hn. revert s Hn.
  induction n as [n IH] using lt_wf_ind. intros s ->.
  destruct (ws_head s) as [r|] eqn:Hh.
  - rewrite (lstrip_unfold (s +:+ u)), (ws_head_app s r u Hh).
    rewrite (lstrip_unfold s), Hh.
    apply (IH (String.length r)); [now apply ws_head_shorter|done].
  - rewrite (lstrip_unfold s), Hh. destruct (decide (s = "")) as [->|Hne].
    + exact Hu.
    + rewrite lstrip_unfold.
      now rewrite (ws_head_app_None s u Hh Hne (all_ws_head u Hu)).
Qed.

Lemma ws_head_lstrip (s : string) : ws_head (lstrip s) = None.
Proof.
  remember (String.length s) as n eqn:Hn. revert s Hn.
  induction n as [n IH] using lt_wf_ind. intros s ->.
  rewrite lstrip_unfold. destruct (ws_head s) as [r|] eqn:Hh; [|done].
  apply (IH (String.length r)); [now apply ws_head_shorter|done].
Qed.

Lemma rstrip_split (t : string) : ∃ u, t = rstrip t +:+ u ∧ lstrip u = "".
Proof.
  induction t as [|a t IH]; [now exists ""|]. cbn [rstrip].
  destruct (decide (lstrip (String a t) = "")) as [Hall|Hnot].
  - now exists (String a t).
  - destruct IH as (u & Ht & Hu). exists u. split; [|done].
    now rewrite append_cons, <- Ht.
Qed.

Lemma rstrip_idem (t : string) : rstrip (rstrip t) = rstrip t.
Proof.
  induction t as [|a t IH]; [done|]. cbn [rstrip].
  destruct (decide (lstrip (String a t) = "")) as [Hall|Hnot]; [done|].
  cbn [rstrip].
  destruct (decide (lstrip (String a (rstrip t)) = "")) as [Hall'|_].
  - exfalso. apply Hnot. destruct (rstrip_split t) as (u & Ht & Hu).
    rewrite Ht at 1.
    change (String a (rstrip t +:+ u)) with (String a (rstrip t) +:+ u).
    now rewrite lstrip_app_all_ws.
  - now rewrite IH.
Qed.

Lemma rstrip_app (t u : string) : lstrip u = "" → rstrip (t +:+ u) = rstrip t.
Proof.
  intros Hu. induction t as [|a t IH].
  - change ("" +:+ u) with u. destruct u as [|x u]; [done|]. cbn [rstrip].
    now rewrite decide_True.
  - rewrite append_cons. cbn [rstrip].
    change (String a (t +:+ u)) with (String a t +:+ u).
    rewrite (lstrip_app (String a t) u Hu).
    destruct (decide (lstrip (String a t) = "")) as [Hall|Hnot].
    + now rewrite decide_True.
    + rewrite decide_False; [now rewrite IH|].
      intros H. apply Hnot.
      destruct (lstrip (String a t)); [done|discriminate H].
Qed.

Lemma strip_idem (s : string) : strip (strip s) = strip s.
Proof.
  unfold strip.
  assert (H : lstrip (rstrip (lstrip s)) = rstrip (lstrip s)).
  { rewrite lstrip_unfold.
    destruct (rstrip_split (lstrip s)) as (u & Ht & _).
    pose proof (ws_head_lstrip s) as Hh. rewrite Ht in Hh.
    now rewrite (ws_head_prefix_None _ _ Hh). }
  now rewrite H, rstrip_idem.
Qed.

Lemma strip_no_edge_whitespace (s : string) :
  ws_head (strip s) = None ∧
  ∀ p u, strip s = p +:+ u → lstrip u = "" → u = "".
Proof.
  split.
  - unfold strip. destruct (rstrip_split (lstrip s)) as (u & Ht & _).
    pose proof (ws_head_lstrip s) as Hh. rewrite Ht in Hh.
    exact (ws_head_prefix_None _ _ Hh).
  - intros p u Hpu Hu.
    assert (Hr : rstrip (strip s) = strip s) by apply rstrip_idem.
    rewrite Hpu, (rstrip_app p u Hu) in Hr.
    destruct (rstrip_split p) as (u' & Hp & _).
    apply (f_equal String.length) in Hr, Hp.
    rewrite !length_append in *.
    destruct u; [done|]. simpl in *. lia.
Qed.

Lemma strip_surrounded (u1 core u2 : string) :
  lstrip u1 = "" → lstrip u2 = "" →
  ws_head core = None → rstrip core = core →
  strip (u1 +:+ core +:+ u2) = core.
Proof.
  intros H1 H2 Hh Hr. unfold strip.
  rewrite (lstrip_app_all_ws u1 _ H1), (lstrip_app core u2 H2).
  assert (Hl : lstrip core = core) by now rewrite lstrip_unfold, Hh.
  rewrite Hl. destruct (decide (core = "")) as [->|Hne]; [done|].
  now rewrite (rstrip_app core u2 H2).
Qed.

End Password.

(** ** Where the password comes from *)

Section Secrets.
Import Config.

(** X17. A password given in POSTGRES_PASSWORD is used as it is, even when
    empty: it is not stripped, and the password file is never looked at,
    so neither a missing nor an unreadable file matters. *)
Theorem password_from_environment
    (environ : gmap string string) (fs : gmap string node)
    (read_fault : option exn) (p : string) :
  environ !! "POSTGRES_PASSWORD" = Some p →
  DB_PASS environ fs read_fault = Return (Some p).
Proof.
  intros Hp. unfold DB_PASS, getenv. rewrite Hp.
  now destruct (environ !! "POSTGRES_PASSWORD_FILE").
Qed.

Lemma password_from_environment_witness :
  DB_PASS {[ "POSTGRES_PASSWORD" := " s3cret ";
             "POSTGRES_PASSWORD_FILE" := "/run/secrets/db" ]}
          {[ "/run/secrets/db" := Directory ]}
          (Some (Exn "PermissionError" "Permission denied")) =
    Return (Some " s3cret ").
Proof. apply password_from_environment. reflexivity. Defined.

Lemma DB_PASS_of_file
    (environ : gmap string string) (fs : gmap string node)
    (path text : string) :
  environ !! "POSTGRES_PASSWORD" = None →
  environ !! "POSTGRES_PASSWORD_FILE" = Some path →
  path ≠ "" →
  fs !! path = Some (File text) →
  DB_PASS environ fs None = Return (Some (strip text)).
Proof.
  intros Hp Hf Hne Hfile. unfold DB_PASS, getenv. rewrite Hp, Hf, Hfile.
  rewrite bool_decide_eq_true_2 by done.
  rewrite bool_decide_eq_true_2 by eauto. reflexivity.
Qed.

(** X18. Without POSTGRES_PASSWORD, a POSTGRES_PASSWORD_FILE that names an
    existing, readable file gives the text of the file, stripped: the
    password neither starts nor ends with a whitespace character, and
    stripping it again changes nothing. *)
Theorem password_from_file
    (environ : gmap string string) (fs : gmap string node)
    (path text : string) :
  environ !! "POSTGRES_PASSWORD" = None →
  environ !! "POSTGRES_PASSWORD_FILE" = Some path →
  path ≠ "" →
  fs !! path = Some (File text) →
  DB_PASS environ fs None = Return (Some (strip text)) ∧
  ws_head (strip text) = None ∧
  (∀ p u, strip text = p +:+ u → lstrip u = "" → u = "") ∧
  strip (strip text) = strip text.
Proof.
  intros Hp Hf Hne Hfile. split_and!.
  - now apply (DB_PASS_of_file environ fs path text).
  - apply strip_no_edge_whitespace.
  - apply strip_no_edge_whitespace.
  - apply strip_idem.
Qed.

Lemma password_from_file_witness :
  DB_PASS {[ "POSTGRES_PASSWORD_FILE" := "/run/secrets/db" ]}
          {[ "/run/secrets/db" := File "  hunter2  " ]} None =
    Return (Some "hunter2").
Proof.
  apply (password_from_file _ _ "/run/secrets/db" "  hunter2  ");
    [reflexivity | reflexivity | discriminate | reflexivity].
Defined.

(** X19. Whitespace around the password in the file does not count: a
    file holding whitespace, then a text that neither starts nor ends with
    whitespace, then whitespace (the newline at the end of a secret file,
    say) gives exactly that text. *)
Theorem password_file_whitespace_ignored
    (environ : gmap string string) (fs : gmap string node)
    (path before core after : string) :
  environ !! "POSTGRES_PASSWORD" = None →
  environ !! "POSTGRES_PASSWORD_FILE" = Some path →
  path ≠ "" →
  fs !! path = Some (File (before +:+ core +:+ after)) →
  lstrip before = "" → lstrip after = "" →
  ws_head core = None → rstrip core = core →
  DB_PASS environ fs None = Return (Some core).
Proof.
  intros Hp Hf Hne Hfile Hb Ha Hh Hr.
  rewrite (DB_PASS_of_file environ fs path _ Hp Hf Hne Hfile).
  now rewrite strip_surrounded.
Qed.

Lemma password_file_whitespace_ignored_witness :
  DB_PASS {[ "POSTGRES_PASSWORD_FILE" := "/run/secrets/db" ]}
          {[ "/run/secrets/db" :=
               File ("" +:+ "correct horse" +:+ newline) ]}
          None =
    Return (Some "correct horse").
Proof.
  apply (password_file_whitespace_ignored _ _ "/run/secrets/db"
           "" "correct horse" (newline));
    try reflexivity. discriminate.
Defined.

(** X20. Without POSTGRES_PASSWORD, when POSTGRES_PASSWORD_FILE is unset,
    empty, or names a path that does not exist, there is no password and
    no error: [DB_PASS] stays [None], and nothing is read. *)
Theorem password_absent
    (environ : gmap string string) (fs : gmap string node)
    (read_fault : option exn) :
  environ !! "POSTGRES_PASSWORD" = None →
  environ !! "POSTGRES_PASSWORD_FILE" = None
  ∨ environ !! "POSTGRES_PASSWORD_FILE" = Some ""
  ∨ (∃ path, environ !! "POSTGRES_PASSWORD_FILE" = Some path
             ∧ fs !! path = None) →
  DB_PASS environ fs read_fault = Return None.
Proof.
  intros Hp Hcase. unfold DB_PASS, getenv. rewrite Hp.
  destruct Hcase as [-> | [-> | (path & -> & Hnone)]]; [done..|].
  rewrite Hnone. rewrite (bool_decide_eq_false_2 (is_Some None)).
  - now rewrite andb_false_r.
  - now intros [x Hx].
Qed.

Lemma password_absent_witness :
  DB_PASS {[ "POSTGRES_PASSWORD_FILE" := "/run/secrets/db" ]} ∅
          (Some (Exn "PermissionError" "Permission denied")) = Return None.
Proof.
  apply password_absent; [reflexivity|].
  right. right. now exists "/run/secrets/db".
Defined.

(** X21. Without POSTGRES_PASSWORD, a POSTGRES_PASSWORD_FILE that names
    something that exists but cannot be read as a file raises: nothing
    catches the error of [open] or [read], and a directory cannot be
    opened. *)
Theorem password_file_unreadable
    (environ : gmap string string) (fs : gmap string node)
    (read_fault : option exn) (path : string) :
  environ !! "POSTGRES_PASSWORD" = None →
  environ !! "POSTGRES_PASSWORD_FILE" = Some path →
  path ≠ "" →
  is_Some (fs !! path) →
  (∀ e, read_fault = Some e → DB_PASS environ fs read_fault = Raise e) ∧
  (fs !! path = Some Directory →
   ∃ e, DB_PASS environ fs read_fault = Raise e).
Proof.
  intros Hp Hf Hne Hex. unfold DB_PASS, getenv. rewrite Hp, Hf.
  rewrite bool_decide_eq_true_2 by done.
  rewrite bool_decide_eq_true_2 by done. simpl. split.
  - now intros e ->.
  - intros ->. destruct read_fault; eauto.
Qed.

Lemma password_file_unreadable_witness :
  ∃ e, DB_PASS {[ "POSTGRES_PASSWORD_FILE" := "/run/secrets" ]}
               {[ "/run/secrets" := Directory ]} None = Raise e.
Proof.
  apply (password_file_unreadable _ _ None "/run/secrets");
    [reflexivity | reflexivity | discriminate | | reflexivity].
  eexists. reflexivity.
Defined.

End Secrets.

(** ** What gets counted *)

Section Exactness.
Import Worker.

(** X22. A vote is counted only for an entry that is exactly the bytes of
    "cats" or of "dogs": whenever a pass prints "counted: o", the entry it
    took off the tail of the list was the UTF-8 text of [o], byte for byte
    (no trimming, no folding of case), and [o] is one of the two options. *)
Theorem counted_only_exact_bytes (e : env) (o : string) (w : world) :
  stdout (snd (loop_body e w)) = stdout w ++ ["counted: " +:+ o] →
  o ∈ ["cats"; "dogs"] ∧
  votes w = votes (snd (loop_body e w)) ++ [encode o] ∧
  redis_fault e = None ∧ pg_fault e = None.
Proof.
  destruct (loop_body_spec e w) as
    [ | | | | | | | q entry choice db Hr Hq Hd Hin Hp Hok Hsql]; cbn [fst snd];
    intros Hout;
    try (apply app_inv_head in Hout; simpl in Hout; discriminate Hout);
    try (apply (f_equal length) in Hout; rewrite length_app in Hout;
         simpl in Hout; lia).
  apply app_inv_head in Hout. injection Hout as Hline.
  change (choice = o) in Hline. subst choice.
  apply decode_Return_encode in Hd as ->. now split_and!.
Qed.

Lemma counted_only_exact_bytes_witness :
  let e := {| redis_fault := None; pg_fault := None |} in
  let w := boot [encode "dogs"; encode "cats"] (Some ∅) in
  votes w = votes (snd (loop_body e w)) ++ [encode "cats"].
Proof.
  intros e w.
  apply (counted_only_exact_bytes e "cats" w). reflexivity.
Defined.

End Exactness.

(** ** The worker takes votes in the order they were cast *)

Section Order.
Import App Worker System.

Lemma pass_pops_tail (e : env) (q : list bytes) (entry : bytes) (w : world) :
  redis_fault e = None → votes w = q ++ [entry] →
  fst (loop_body e w) = Return tt ∧ votes (snd (loop_body e w)) = q.
Proof.
  intros Hr Hq.
  destruct (loop_body_spec e w) as
    [Hr' Hq' | ex Hr' | q' entry' ex Hr' Hq' Hd'
     | q' entry' choice Hr' Hq' Hd' Hin
     | q' entry' choice ex Hr' Hq' Hd' Hin Hp
     | q' entry' choice Hr' Hq' Hd' Hin Hp Hab
     | q' entry' choice ex Hr' Hq' Hd' Hin Hp Hok Hsql
     | q' entry' choice db Hr' Hq' Hd' Hin Hp Hok Hsql];
    try congruence;
    try (rewrite Hq in Hq'; apply same_tail in Hq' as [<- <-]; now split).
  rewrite Hq in Hq'. now destruct q.
Qed.

Lemma step_queue (a : action) (w : world) :
  match a with
  | LoopPass _ => drop (length (votes (step a w))) (votes w)
  | _ => []
  end ++ rev (votes (step a w)) =
  rev (votes w) ++ enqueued [a].
Proof.
  destruct a as [fault f|fault|entry|fault|e]; cbn [enqueued].
  - simpl step. rewrite vote_votes, rev_app_distr, app_nil_r.
    now rewrite (rev_at_most_one _ (accepted_single (Submit fault f))).
  - simpl. destruct fault; simpl; now rewrite app_nil_r.
  - simpl. reflexivity.
  - simpl step. rewrite (proj1 (ensure_table_frame fault w)).
    simpl. now rewrite app_nil_r.
  - simpl step. destruct (pass_only_pops e w) as (popped & Hpop & Hlen & _).
    rewrite Hpop. rewrite drop_app_length, rev_app_distr, app_nil_r.
    now rewrite (rev_at_most_one _ Hlen).
Qed.

Lemma enqueued_cons (a : action) (acts : list action) :
  enqueued (a :: acts) = enqueued [a] ++ enqueued acts.
Proof.
  destruct a as [fault f|fault|entry|fault|e]; simpl; try done.
  now rewrite app_nil_r.
Qed.

Lemma run_queue (acts : list action) (w : world) :
  dequeued acts w ++ rev (votes (run acts w)) = rev (votes w) ++ enqueued acts.
Proof.
  revert w. induction acts as [|a acts IH]; intros w.
  { simpl. now rewrite app_nil_r. }
  rewrite enqueued_cons. cbn [dequeued run].
  rewrite <- app_assoc, IH, !app_assoc. f_equal. apply step_queue.
Qed.

Lemma posts_pushed (vs : list string) (w : world) :
  Forall (λ v, v ∈ ["cats"; "dogs"]) vs →
  votes (run (posts vs) w) = rev (map encode vs) ++ votes w ∧
  conn (run (posts vs) w) = conn w ∧
  stdout (run (posts vs) w) = stdout w ∧
  slept (run (posts vs) w) = slept w.
Proof.
  intros Hvs. revert w. induction Hvs as [|v vs Hv _ IH]; intros w; [done|].
  cbn [posts map run step]. fold (posts vs).
  rewrite (vote_valid None [("vote", v)] v w eq_refl Hv). cbn [snd].
  destruct (IH (set_votes (encode v :: votes w) w)) as (-> & -> & -> & ->).
  split_and!; try done. simpl. now rewrite <- app_assoc.
Qed.

(** In a run of the loop in which nothing can fail, the votes on the list
    are counted one per pass from the tail to the head. *)
Lemma main_loop_counts_in_order
    (envs : list env) (w : world) (t : gmap string Z) :
  Forall (λ e, redis_fault e = None ∧ pg_fault e = None) envs →
  length envs = length (votes w) →
  Forall (λ b, b = encode "cats" ∨ b = encode "dogs") (votes w) →
  txn (conn w) = None →
  stored (conn w) = Some t →
  (∀ o, o ∈ ["cats"; "dogs"] →
        (tally (Some t) o + Z.of_nat (votes_for o (votes w)) ≤ INT4_MAX)%Z) →
  stdout (main_loop envs w) =
    stdout w ++ map (λ b, "counted: " +:+ string_of_list_byte b) (rev (votes w)) ∧
  votes (main_loop envs w) = [].
Proof.
  revert w t.
  induction envs as [|e envs IH]; intros w t Henvs Hlen Hval Hidle Ht Hroom.
  { symmetry in Hlen. apply nil_length_inv in Hlen. rewrite Hlen. simpl.
    now rewrite app_nil_r. }
  apply Forall_cons in Henvs as [[He1 He2] Henvs].
  rewrite main_loop_cons.
  destruct (loop_body_spec e w) as
    [Hr Hq | ex Hr | q entry ex Hr Hq Hd | q entry choice Hr Hq Hd Hin
     | q entry choice ex Hr Hq Hd Hin Hp
     | q entry choice Hr Hq Hd Hin Hp Hab
     | q entry choice ex Hr Hq Hd Hin Hp Hok Hsql
     | q entry choice db Hr Hq Hd Hin Hp Hok Hsql];
    cbn [fst snd]; try congruence;
    try (rewrite Hq in Hlen; discriminate Hlen);
    rewrite Hq in Hval; apply Forall_app in Hval as [Hval Hentry];
    apply Forall_inv in Hentry;
    assert (Hchoice : decode entry = Return (string_of_list_byte entry)
                      ∧ string_of_list_byte entry ∈ ["cats"; "dogs"])
      by (destruct Hentry as [-> | ->]; split; try reflexivity;
          [left | right; left]);
    destruct Hchoice as [Hdec Hopt]; rewrite Hd in Hdec;
    try discriminate Hdec; injection Hdec as Hdec; subst choice.
  - contradiction.
  - exfalso. rewrite (view_settled _ (or_introl Hidle)), Ht in Hsql.
    simpl in Hsql. specialize (Hroom _ Hin).
    rewrite Hq, votes_for_snoc, (is_vote_for_decoded _ _ _ Hd) in Hroom.
    rewrite bool_decide_eq_true_2 in Hroom by done.
    unfold tally in Hroom. simpl in Hroom.
    destruct (t !! string_of_list_byte entry) as [c|]; [|done].
    simpl in Hroom.
    destruct (Z.leb_spec (c + 1) INT4_MAX); [done|lia].
  - rewrite (view_settled _ (or_introl Hidle)) in Hsql.
    apply run_sql_upsert_inr in Hsql as (t' & Ht' & -> & _).
    assert (t' = t) as -> by congruence.
    rewrite Hq, length_app in Hlen. simpl in Hlen.
    edestruct IH as [Hout Hempty]; [exact Henvs | | | | | |].
    6:{ rewrite Hout, Hempty. split; [|done]. simpl.
        rewrite Hq, rev_app_distr. simpl. now rewrite <- app_assoc. }
    + simpl. lia.
    + exact Hval.
    + reflexivity.
    + reflexivity.
    + intros o Ho. specialize (Hroom o Ho).
      rewrite Hq, votes_for_snoc, (is_vote_for_decoded _ _ _ Hd) in Hroom.
      unfold tally in *. simpl in *.
      destruct (decide (string_of_list_byte entry = o)) as [Heq|Hne].
      * rewrite bool_decide_eq_true_2 in Hroom by done. rewrite Heq.
        rewrite lookup_insert_eq. destruct (t !! o); simpl in *; lia.
      * rewrite bool_decide_eq_false_2 in Hroom by done.
        rewrite lookup_insert_ne by done. lia.
Qed.

Lemma posted_votes_valid (vs : list string) :
  Forall (λ v, v ∈ ["cats"; "dogs"]) vs →
  Forall (λ b, b = encode "cats" ∨ b = encode "dogs") (rev (map encode vs)).
Proof.
  intros Hvs. apply Forall_forall. intros b Hb.
  apply list_elem_of_In, in_rev, in_map_iff in Hb as (v & <- & Hv).
  apply list_elem_of_In in Hv. rewrite Forall_forall in Hvs.
  specialize (Hvs v Hv).
  repeat (apply elem_of_cons in Hvs as [->|Hvs]); eauto.
  now apply elem_of_nil in Hvs.
Qed.

(** C5. The list is a queue between the intake and the worker. A valid
    POST /vote puts its vote at the head of the list, and a pass of the
    worker's loop whose pop succeeds takes the entry at the tail, the
    oldest, whatever it then does with it. So along any interleaving of
    requests, pushes and passes, what the passes took so far, followed by
    what is still on the list from tail to head, is what was on the list at
    the start followed by everything put on it, in the order it was put:
    from an empty list the worker takes a prefix of the submissions, never
    a vote before one that was pushed earlier. And when nothing fails, the
    worker prints "counted: ..." for the posted votes in exactly the order
    they were posted. *)
Theorem queue_is_fifo (acts : list action) (w : world) :
  (∀ f v, form_get "vote" f = Some v → v ∈ ["cats"; "dogs"] →
          votes (snd (vote None f w)) = encode v :: votes w) ∧
  (∀ e q entry, redis_fault e = None → votes w = q ++ [entry] →
                fst (loop_body e w) = Return tt ∧
                votes (snd (loop_body e w)) = q) ∧
  dequeued acts w ++ rev (votes (run acts w)) = rev (votes w) ++ enqueued acts ∧
  (votes w = [] → dequeued acts w `prefix_of` enqueued acts) ∧
  (∀ vs envs t,
     Forall (λ v, v ∈ ["cats"; "dogs"]) vs →
     votes w = [] →
     txn (conn w) = None →
     stored (conn w) = Some t →
     Forall (λ e, redis_fault e = None ∧ pg_fault e = None) envs →
     length envs = length vs →
     (∀ o, o ∈ ["cats"; "dogs"] →
           (tally (Some t) o + Z.of_nat (votes_for o (map encode vs))
            ≤ INT4_MAX)%Z) →
     stdout (main_loop envs (run (posts vs) w)) =
       stdout w ++ map (λ v, "counted: " +:+ v) vs ∧
     votes (main_loop envs (run (posts vs) w)) = []).
Proof.
  split_and!.
  - intros f v Hf Hv. now rewrite (vote_valid None f v w Hf Hv).
  - intros e q entry. apply pass_pops_tail.
  - apply run_queue.
  - intros Hq. pose proof (run_queue acts w) as H. rewrite Hq in H.
    simpl in H. rewrite <- H. now apply prefix_app_r.
  - intros vs envs t Hvs Hq Hidle Ht Henvs Hlen Hroom.
    destruct (posts_pushed vs w Hvs) as (Hv1 & Hc1 & Ho1 & _).
    rewrite Hq, app_nil_r in Hv1.
    destruct (main_loop_counts_in_order envs (run (posts vs) w) t)
      as [Hout Hempty]; try done.
    + now rewrite Hv1, length_rev, length_map.
    + rewrite Hv1. now apply posted_votes_valid.
    + now rewrite Hc1.
    + now rewrite Hc1.
    + intros o Ho. rewrite Hv1.
      rewrite <- (votes_for_perm o _ _ (Permutation_rev (map encode vs))).
      now apply Hroom.
    + split; [|done]. rewrite Hout, Ho1, Hv1, rev_involutive, map_map.
      f_equal. apply map_ext. intros v. unfold encode.
      now rewrite string_of_list_byte_of_string.
Qed.

Lemma queue_is_fifo_witness :
  let e := {| redis_fault := None; pg_fault := None |} in
  let w := boot [] (Some ∅) in
  stdout (main_loop [e; e; e] (run (posts ["cats"; "dogs"; "cats"]) w)) =
    ["counted: cats"; "counted: dogs"; "counted: cats"] ∧
  dequeued [PostVote None [("vote", "dogs")]; PostVote None [("vote", "cats")];
            LoopPass e; PostVote None [("vote", "cats")]; LoopPass e] w
    `prefix_of` [encode "dogs"; encode "cats"; encode "cats"].
Proof.
  intros e w. split.
  - destruct (queue_is_fifo [] w) as (_ & _ & _ & _ & H).
    apply (H ["cats"; "dogs"; "cats"] [e; e; e] ∅); try reflexivity.
    + repeat constructor.
    + repeat constructor.
    + intros o Ho. repeat (apply elem_of_cons in Ho as [->|Ho]);
        [vm_compute; discriminate..|now apply elem_of_nil in Ho].
  - destruct (queue_is_fifo
                [PostVote None [("vote", "dogs")];
                 PostVote None [("vote", "cats")];
                 LoopPass e; PostVote None [("vote", "cats")]; LoopPass e] w)
      as (_ & _ & _ & H & _).
    apply H. reflexivity.
Defined.

End Order.
